(** * Admission prediction service: batch job lifecycle and authentication gate

    A shallow embedding of [src/models/input_model.py], [src/auth/jwt_auth.py]
    and [src/service_batch.py].

    Conventions of the embedding.
    - A Python [float] that arrives in a JSON document is a finite number; it
      is represented by the rational it denotes ([Q]).  The only operations
      the service performs on such numbers are the comparisons with the integer
      bounds of the pydantic [Field]s, which are exact on finite floats.
    - A JSON object is a finite map from keys to numbers ([gmap string Q]).
    - The process-wide dictionary [jobs] is a [gmap string job]; the keys of a
      job dictionary that are absent until a terminal state is reached
      ([error], [completed_at]) are [option] fields.
    - Python exceptions are values of [exn]; a call that may raise returns
      [exn + A].
    - Libraries the service calls but does not define (PyJWT's [jwt.decode],
      FastAPI's [HTTPBearer], the scikit-learn estimator loaded from the model
      store, [uuid.uuid4], [os.getenv]) are parameters of the development. *)

From Stdlib Require Import QArith ZArith Lia Ascii String.
From stdpp Require Import gmap strings pretty list fin_maps relations.

Local Open Scope string_scope.
Set Default Proof Using "Type".

(** ** Exceptions *)

Inductive exn :=
| ValidationError (loc : string) (msg : string)
| KeyError (key : string)
| IndexError
| ExpiredSignatureError
| InvalidTokenError
| RuntimeError (msg : string).

(** [str(e)] *)
Definition str (e : exn) : string :=
  match e with
  | ValidationError loc msg => "1 validation error: " +:+ loc +:+ ": " +:+ msg
  | KeyError k => "'" +:+ k +:+ "'"
  | IndexError => "index out of range"
  | ExpiredSignatureError => "Signature has expired"
  | InvalidTokenError => "Invalid token"
  | RuntimeError msg => msg
  end.

(** A small error monad for code that may raise. *)
Definition raises (A : Type) : Type := exn + A.

Definition bind {A B} (m : raises A) (k : A -> raises B) : raises B :=
  match m with
  | inl e => inl e
  | inr a => k a
  end.

Notation "'let*' x ':=' m 'in' k" := (bind m (fun x => k))
  (at level 10, x name, m at level 100, k at level 200).

(** A list comprehension whose element expression may raise: the first
    exception aborts the comprehension. *)
Fixpoint comprehension {A B} (f : A -> raises B) (l : list A) : raises (list B) :=
  match l with
  | [] => inr []
  | a :: l' => let* b := f a in let* bs := comprehension f l' in inr (b :: bs)
  end.

(** ** [src/models/input_model.py] *)

Module models.

Record AdmissionInput := mkAdmissionInput {
  gre_score : Q;
  toefl_score : Q;
  university_rating : Q;
  sop : Q;
  lor : Q;
  cgpa : Q;
  research : Z
}.

Record AdmissionOutput := mkAdmissionOutput {
  chance_of_admit : Q
}.

(** A [float] field declared [Field(..., ge=lo, le=hi)]. *)
Definition float_field (d : gmap string Q) (name : string) (lo hi : Q) : raises Q :=
  match d !! name with
  | None => inl (ValidationError name "Field required")
  | Some v =>
      if negb (Qle_bool lo v)
      then inl (ValidationError name "Input should be greater than or equal to the lower bound")
      else if negb (Qle_bool v hi)
      then inl (ValidationError name "Input should be less than or equal to the upper bound")
      else inr v
  end.

(** An [int] field declared [Field(..., ge=lo, le=hi)]: a number with a
    fractional part is not an integer. *)
Definition int_field (d : gmap string Q) (name : string) (lo hi : Z) : raises Z :=
  match d !! name with
  | None => inl (ValidationError name "Field required")
  | Some v =>
      if negb (Qnum v mod Zpos (Qden v) =? 0)%Z
      then inl (ValidationError name "Input should be a valid integer")
      else
        let n := (Qnum v / Zpos (Qden v))%Z in
        if negb (lo <=? n)%Z
        then inl (ValidationError name "Input should be greater than or equal to the lower bound")
        else if negb (n <=? hi)%Z
        then inl (ValidationError name "Input should be less than or equal to the upper bound")
        else inr n
  end.

(** The constructor call [AdmissionInput] on the unpacked dictionary [inp]. *)
Definition AdmissionInput_init (inp : gmap string Q) : raises AdmissionInput :=
  let* gre := float_field inp "gre_score" 0 (340 # 1) in
  let* toefl := float_field inp "toefl_score" 0 (120 # 1) in
  let* rating := float_field inp "university_rating" 1 (5 # 1) in
  let* s := float_field inp "sop" 1 (5 # 1) in
  let* l := float_field inp "lor" 1 (5 # 1) in
  let* c := float_field inp "cgpa" 0 (10 # 1) in
  let* r := int_field inp "research" 0 1 in
  inr (mkAdmissionInput gre toefl rating s l c r).

Record BatchAdmissionInput := mkBatchAdmissionInput {
  inputs : list AdmissionInput
}.

(** [validate_batch_size] *)
Definition validate_batch_size (v : list AdmissionInput) : raises (list AdmissionInput) :=
  if (1000 <? length v)%nat
  then inl (ValidationError "inputs" "Value error, Batch size cannot exceed 1000 records")
  else inr v.

(** [BatchAdmissionInput(inputs=...)]: the [min_length=1] constraint of the
    field, then the field validator. *)
Definition BatchAdmissionInput_init (v : list AdmissionInput) : raises BatchAdmissionInput :=
  if (length v <? 1)%nat
  then inl (ValidationError "inputs" "List should have at least 1 item after validation")
  else let* v' := validate_batch_size v in inr (mkBatchAdmissionInput v').

(** [AdmissionOutput(chance_of_admit=x)], declared [Field(..., ge=0, le=1)]. *)
Definition AdmissionOutput_init (x : Q) : raises AdmissionOutput :=
  if negb (Qle_bool 0 x)
  then inl (ValidationError "chance_of_admit" "Input should be greater than or equal to 0")
  else if negb (Qle_bool x 1)
  then inl (ValidationError "chance_of_admit" "Input should be less than or equal to 1")
  else inr (mkAdmissionOutput x).

End models.
Import models.

(** ** HTTP responses *)

(** The JSON documents the service answers with. *)
Inductive body :=
| Error (msg : string)
| Detail (detail : string)
| Token (token : string)
| Prediction (chance_of_admit : Q)
| JobMessage (job_id status message : string)
| JobStatus (job_id status : string)
| JobResults (job_id status : string) (results : list AdmissionOutput) (total : nat)
| JobFailure (job_id status error : string).

Record response := JSONResponse {
  content : body;
  status_code : nat
}.

(** [raise HTTPException(status_code, detail)], as rendered by FastAPI. *)
Definition HTTPException (code : nat) (detail : body) : response :=
  JSONResponse detail code.

(** ** Strings *)

(** [s.split(" ")]: every blank separates, consecutive blanks give empty
    pieces, and the empty string splits into one empty piece. *)
Fixpoint split_blank (s : string) : list string :=
  match s with
  | EmptyString => [EmptyString]
  | String c rest =>
      if Ascii.eqb c " "%char
      then EmptyString :: split_blank rest
      else match split_blank rest with
           | [] => [String c EmptyString]
           | w :: ws => String c w :: ws
           end
  end.

(** [s.startswith(p)] *)
Definition startswith (s p : string) : bool := String.prefix p s.

(** A claim of a decoded token: a string such as [sub], or a number such as
    [exp] and [iat]. *)
Inductive claim :=
| CStr (s : string)
| CNum (n : Z).

(** What the authentication middleware does with a request. *)
Inductive outcome :=
| call_next
| respond (r : response)
| propagate (e : exn).

(** The outcome of [dispatch], with the tokens handed to [verify_token] in
    call order. *)
Record dispatched := mkDispatched {
  result : outcome;
  verified : list string
}.

(** ** The job store *)

(** A job dictionary.  [error] and [completed_at] are keys that are absent
    until the job reaches a terminal state. *)
Module Job.
Record job := mk {
  status : string;
  results : list AdmissionOutput;
  created_at : Q;
  inputs : list AdmissionInput;
  error : option string;
  completed_at : option Q
}.

Definition set_status (v : string) (j : job) : job :=
  mk v (results j) (created_at j) (inputs j) (error j) (completed_at j).
Definition set_results (v : list AdmissionOutput) (j : job) : job :=
  mk (status j) v (created_at j) (inputs j) (error j) (completed_at j).
Definition set_error (v : string) (j : job) : job :=
  mk (status j) (results j) (created_at j) (inputs j) (Some v) (completed_at j).
Definition set_completed_at (v : Q) (j : job) : job :=
  mk (status j) (results j) (created_at j) (inputs j) (error j) (Some v).
End Job.

(** Where a background thread running [process_batch_job] stands: before its
    first critical section, between the two, or returned. *)
Inductive pc :=
| at_start
| at_predict
| at_exit.

(** A [threading.Thread(target=process_batch_job, args=(self, job_id, inputs))]. *)
Record thread := Thread {
  arg_job_id : string;
  arg_inputs : list AdmissionInput;
  at_pc : pc
}.

(** The state of the process: the module-level [jobs] dictionary, the
    background threads started so far, and the number of identifiers drawn
    from [uuid.uuid4]. *)
Record world := World {
  jobs : gmap string Job.job;
  threads : list thread;
  uuid_calls : nat
}.

Definition startup : world := World ∅ [] 0.

(** The routes of the mounted FastAPI application. *)
Inductive route :=
| batch_status
| batch_results.

(** ** A concrete environment

    One instance of the parameters of the development, used to run the
    service on concrete requests: no environment variables are set, tokens
    are drawn from a four-element table, the estimator is a linear
    regression (the kind of estimator [train_model.py] stores) with fixed
    coefficients, and identifiers are the decimal numerals. *)
Module example.

Definition environ : gmap string string := ∅.

Definition jwt_decode (token key : string) (algorithms : list string) (now : Z)
    : raises (gmap string claim) :=
  if String.eqb token "admin.token" then
    inr {[ "sub" := CStr "admin"; "exp" := CNum (now + 1800); "iat" := CNum now ]}
  else if String.eqb token "guest.token" then
    inr {[ "sub" := CStr "guest"; "exp" := CNum (now + 1800); "iat" := CNum now ]}
  else if String.eqb token "old.token" then inl ExpiredSignatureError
  else inl InvalidTokenError.

(** The credentials are what follows the scheme and the first blank. *)
Definition security (auth_header : option string) : response + string :=
  match auth_header with
  | None => inl (HTTPException 403 (Detail "Not authenticated"))
  | Some h =>
      if startswith h "Bearer "
      then inr (String.substring 7 (String.length h - 7) h)
      else inl (HTTPException 403 (Detail "Invalid authentication credentials"))
  end.

Definition uuid4 (k : nat) : string := pretty k.

Definition coef : list Q :=
  [186 # 100000; 278 # 100000; 594 # 100000; 159 # 100000; 1686 # 100000;
   11839 # 100000; 2431 # 100000].
Definition intercept : Q := - (127570 # 100000).

Fixpoint dot (u v : list Q) : Q :=
  match u, v with
  | a :: u', b :: v' => a * b + dot u' v'
  | _, _ => 0
  end.

(** [LinearRegression.predict] on one row, and on a matrix. *)
Definition Predictor (row : list Q) : Q := Qred (dot coef row + intercept).
Definition model (X : list (list Q)) : raises (list Q) := inr (map Predictor X).

(** The three inputs of the test suite's batch. *)
Definition sample_input : gmap string Q :=
  {[ "gre_score" := 337 # 1; "toefl_score" := 118 # 1; "university_rating" := 4 # 1;
     "sop" := 45 # 10; "lor" := 45 # 10; "cgpa" := 965 # 100; "research" := 1 # 1 ]}.
Definition sample_batch_input : list (gmap string Q) :=
  [ sample_input;
    {[ "gre_score" := 320 # 1; "toefl_score" := 110 # 1; "university_rating" := 3 # 1;
       "sop" := 35 # 10; "lor" := 3 # 1; "cgpa" := 85 # 10; "research" := 0 # 1 ]};
    {[ "gre_score" := 310 # 1; "toefl_score" := 105 # 1; "university_rating" := 2 # 1;
       "sop" := 3 # 1; "lor" := 25 # 10; "cgpa" := 75 # 10; "research" := 0 # 1 ]} ].

End example.

(** The token issuer of the concrete environment: the token of a subject is
    the subject followed by [.token], which is what [example.jwt_decode]
    reads; expiry is counted in minutes read from a two-entry table. *)
Module example_issuer.

Definition jwt_encode (payload : gmap string claim) (key algorithm : string) : string :=
  match payload !! "sub" with
  | Some (CStr s) => s +:+ ".token"
  | _ => ""
  end.

Definition int (s : string) : Z :=
  if String.eqb s "30" then 30 else if String.eqb s "60" then 60 else 0.

End example_issuer.

Section Service.

(** *** The environment of the process *)

(** [os.environ], after [load_dotenv()]. *)
Variable environ : gmap string string.

(** [jwt.decode(token, key, algorithms=...)] of PyJWT, evaluated when the
    clock reads [now]: the decoded claims, or [ExpiredSignatureError], or
    another [InvalidTokenError], or an exception outside that hierarchy. *)
Variable jwt_decode : string -> string -> list string -> Z -> raises (gmap string claim).

(** FastAPI's [HTTPBearer()] dependency: the credentials of the
    [Authorization] header, or the error response it raises. *)
Variable security : option string -> response + string.

(** *** [src/auth/jwt_auth.py] *)

Definition getenv (key default_value : string) : string :=
  default default_value (environ !! key).

Definition JWT_SECRET : string := getenv "JWT_SECRET_KEY" "default_secret".
Definition JWT_ALGORITHM : string := getenv "JWT_ALGORITHM" "HS256".
Definition API_USERNAME : string := getenv "API_USERNAME" "admin".
Definition API_PASSWORD : string := getenv "API_PASSWORD" "secret123".

Definition PUBLIC_PATHS : list string :=
  ["/login"; "/healthz"; "/docs"; "/openapi.json"; "/metrics"; "/readyz"; "/livez"].

Definition verify_token (now : Z) (token : string) : raises (gmap string claim) :=
  jwt_decode token JWT_SECRET [JWT_ALGORITHM] now.

Definition validate_credentials (username password : string) : bool :=
  String.eqb username API_USERNAME && String.eqb password API_PASSWORD.

(** [JWTAuthMiddleware.dispatch] *)
Definition dispatch (now : Z) (path : string) (auth_header : option string) : dispatched :=
  if existsb (startswith path) PUBLIC_PATHS
  then mkDispatched call_next []
  else
    match auth_header with
    | None =>
        mkDispatched (respond (JSONResponse (Error "Missing or invalid token") 401)) []
    | Some h =>
        if String.eqb h "" || negb (startswith h "Bearer ")
        then mkDispatched (respond (JSONResponse (Error "Missing or invalid token") 401)) []
        else
          match split_blank h !! 1%nat with
          | None => mkDispatched (propagate IndexError) []
          | Some token =>
              match verify_token now token with
              | inl ExpiredSignatureError =>
                  mkDispatched (respond (JSONResponse (Error "Token expired") 401)) [token]
              | inl InvalidTokenError =>
                  mkDispatched (respond (JSONResponse (Error "Invalid token") 401)) [token]
              | inl e => mkDispatched (propagate e) [token]
              | inr _ => mkDispatched call_next [token]
              end
          end
    end.

(** *** [src/service_batch.py]: the token dependency of the GET routes *)

(** [get_current_user]: every exception of [verify_token] becomes a 401. *)
Definition get_current_user (now : Z) (credentials : string) : response + gmap string claim :=
  match verify_token now credentials with
  | inr payload => inr payload
  | inl _ => inl (HTTPException 401 (Detail "Invalid or expired token"))
  end.


(** *** [src/service_batch.py]: the service *)

(** The [k]-th identifier drawn from [str(uuid.uuid4())]. *)
Variable uuid4 : nat -> string.

(** [self.single_model.predict] and [self.batch_model.predict]: the
    scikit-learn estimator loaded from the model store, applied to an
    [N x 7] matrix. *)
Variable single_model : list (list Q) -> raises (list Q).
Variable batch_model : list (list Q) -> raises (list Q).

(** One row of the feature matrix. *)
Definition features_row (inp : AdmissionInput) : list Q :=
  [gre_score inp; toefl_score inp; university_rating inp; sop inp; lor inp;
   cgpa inp; inject_Z (research inp)].

(** [AdmissionService.predict] *)
Definition predict (gre_score toefl_score university_rating sop lor cgpa : Q)
    (research : Z) : raises response :=
  let features :=
    [[gre_score; toefl_score; university_rating; sop; lor; cgpa; inject_Z research]] in
  let* prediction := single_model features in
  match prediction !! 0%nat with
  | None => inl IndexError
  | Some p => inr (JSONResponse (Prediction p) 200)
  end.

(** [AdmissionService.batch_submit] *)
Definition batch_submit (now : Q) (inputs : list (gmap string Q)) (w : world)
    : response * world :=
  match (let* admission_inputs := comprehension AdmissionInput_init inputs in
         BatchAdmissionInput_init admission_inputs) with
  | inl e => (JSONResponse (Error (str e)) 400, w)
  | inr batch_input =>
      let job_id := uuid4 (uuid_calls w) in
      let jobs' :=
        <[job_id := Job.mk "pending" [] now (models.inputs batch_input) None None]>
          (jobs w) in
      let thread := Thread job_id (models.inputs batch_input) at_start in
      (JSONResponse (JobMessage job_id "pending" "Batch job submitted successfully") 200,
       World jobs' (threads w ++ [thread]) (S (uuid_calls w)))
  end.

(** [jobs[job_id][...] = ...] under [jobs_lock]: a [KeyError] when the job is
    not in the dictionary. *)
Definition update_job (f : Job.job -> Job.job) (job_id : string)
    (js : gmap string Job.job) : raises (gmap string Job.job) :=
  match js !! job_id with
  | None => inl (KeyError job_id)
  | Some j => inr (<[job_id := f j]> js)
  end.

(** The [except Exception as e] handler of [process_batch_job]. *)
Definition handle_error (now : Q) (e : exn) (job_id : string)
    (js : gmap string Job.job) : raises (gmap string Job.job) :=
  update_job
    (fun j => Job.set_completed_at now (Job.set_error (str e) (Job.set_status "failed" j)))
    job_id js.

(** Lines 50-70: the feature matrix, the batch prediction and the conversion
    of the predictions.  Nothing here reads or writes [jobs]. *)
Definition batch_predictions (inputs : list AdmissionInput) : raises (list AdmissionOutput) :=
  let features := map features_row inputs in
  let* predictions := batch_model features in
  comprehension AdmissionOutput_init predictions.

(** [process_batch_job], one critical section at a time.  From [at_start] the
    thread takes [jobs_lock] and marks the job as processing.  From
    [at_predict] it computes the predictions, which touches no shared state,
    and then takes the lock once to record the outcome; an exception raised
    anywhere in the [try] block is recorded by the handler, and an exception
    raised by the handler itself ends the thread. *)
Definition process_batch_job (now : Q) (t : thread) (js : gmap string Job.job)
    : gmap string Job.job * thread :=
  let job_id := arg_job_id t in
  let inputs := arg_inputs t in
  let js_handled (e : exn) :=
    match handle_error now e job_id js with
    | inr js' => js'
    | inl _ => js
    end in
  match at_pc t with
  | at_start =>
      match update_job (Job.set_status "processing") job_id js with
      | inr js' => (js', Thread job_id inputs at_predict)
      | inl e => (js_handled e, Thread job_id inputs at_exit)
      end
  | at_predict =>
      match (let* results := batch_predictions inputs in
             update_job
               (fun j => Job.set_completed_at now
                           (Job.set_results results (Job.set_status "completed" j)))
               job_id js) with
      | inr js' => (js', Thread job_id inputs at_exit)
      | inl e => (js_handled e, Thread job_id inputs at_exit)
      end
  | at_exit => (js, t)
  end.

(** The scheduler lets the [i]-th background thread run its next critical
    section. *)
Definition run_thread (now : Q) (i : nat) (w : world) : world :=
  match threads w !! i with
  | None => w
  | Some t =>
      let '(js', t') := process_batch_job now t (jobs w) in
      World js' (<[i := t']> (threads w)) (uuid_calls w)
  end.

(** [batch_status_get] *)
Definition batch_status_get (job_id : string) (js : gmap string Job.job) : response :=
  match js !! job_id with
  | None => HTTPException 404 (Detail "Job not found")
  | Some job => JSONResponse (JobStatus job_id (Job.status job)) 200
  end.

(** [batch_results_get] *)
Definition batch_results_get (job_id : string) (js : gmap string Job.job) : response :=
  match js !! job_id with
  | None => HTTPException 404 (Detail "Job not found")
  | Some job =>
      let status := Job.status job in
      if String.eqb status "completed" then
        let results := Job.results job in
        JSONResponse (JobResults job_id status results (length results)) 200
      else if String.eqb status "pending" || String.eqb status "processing" then
        JSONResponse (JobMessage job_id status "Job is still processing") 202
      else if String.eqb status "failed" then
        let error_msg := default "Unknown error" (Job.error job) in
        HTTPException 500 (JobFailure job_id status error_msg)
      else
        HTTPException 500 (Detail ("Unknown status: " +:+ status))
  end.

(** The path of a GET request. *)
Definition route_path (r : route) (job_id : string) : string :=
  match r with
  | batch_status => "/batch/status/" +:+ job_id
  | batch_results => "/batch/results/" +:+ job_id
  end.

(** A GET request as the application serves it: the middleware, then the
    [HTTPBearer] and [get_current_user] dependencies, then the handler.  An
    exception that leaves the middleware is answered with a 500. *)
Definition serve_get (now : Z) (r : route) (job_id : string)
    (auth_header : option string) (js : gmap string Job.job) : response :=
  match result (dispatch now (route_path r job_id) auth_header) with
  | respond resp => resp
  | propagate _ => JSONResponse (Detail "Internal Server Error") 500
  | call_next =>
      match security auth_header with
      | inl resp => resp
      | inr credentials =>
          match get_current_user now credentials with
          | inl resp => resp
          | inr _ =>
              match r with
              | batch_status => batch_status_get job_id js
              | batch_results => batch_results_get job_id js
              end
          end
      end
  end.

(** *** Executions *)

(** One step of the process: a batch submission is served, or a background
    thread runs its next critical section.  Status and result queries do not
    change the state. *)
Inductive step : world -> world -> Prop :=
| step_submit now inputs w : step w (batch_submit now inputs w).2
| step_thread now i w : step w (run_thread now i w).

Definition reachable (w : world) : Prop := rtc step startup w.

(** *** Notions used by the statements *)

(** The order [pending < processing < {completed, failed}] on statuses. *)
Definition status_rank (s : string) : option nat :=
  if String.eqb s "pending" then Some 0%nat
  else if String.eqb s "processing" then Some 1%nat
  else if String.eqb s "completed" then Some 2%nat
  else if String.eqb s "failed" then Some 2%nat
  else None.

(** [status_le a b]: [b] is [a] or lies strictly later in the order; the two
    terminal statuses are not related to each other. *)
Definition status_le (a b : string) : bool :=
  String.eqb a b ||
  match status_rank a, status_rank b with
  | Some x, Some y => (x <? y)%nat
  | _, _ => false
  end.

(** A field of a JSON object is present and lies between two bounds. *)
Definition within (lo hi : Q) (o : option Q) : Prop :=
  exists v, o = Some v /\ (lo <= v)%Q /\ (v <= hi)%Q.

(** The documented bounds of the seven input fields. *)
Definition in_bounds (inp : gmap string Q) : Prop :=
  within 0 (340 # 1) (inp !! "gre_score") /\
  within 0 (120 # 1) (inp !! "toefl_score") /\
  within 1 (5 # 1) (inp !! "university_rating") /\
  within 1 (5 # 1) (inp !! "sop") /\
  within 1 (5 # 1) (inp !! "lor") /\
  within 0 (10 # 1) (inp !! "cgpa") /\
  (exists v, inp !! "research" = Some v /\ (v == 0 \/ v == 1)%Q).

(** A GET request passes the middleware and both dependencies. *)
Definition authenticated (now : Z) (r : route) (job_id : string)
    (auth_header : option string) : bool :=
  match result (dispatch now (route_path r job_id) auth_header) with
  | call_next =>
      match security auth_header with
      | inr credentials =>
          match get_current_user now credentials with
          | inr _ => true
          | inl _ => false
          end
      | inl _ => false
      end
  | _ => false
  end.

(** The job a background thread works on is in the state the thread's
    position implies. *)
Definition job_agrees (t : thread) (j : Job.job) : Prop :=
  Job.inputs j = arg_inputs t /\
  match at_pc t with
  | at_start =>
      Job.status j = "pending" /\ Job.results j = [] /\ Job.error j = None
  | at_predict =>
      Job.status j = "processing" /\ Job.results j = [] /\ Job.error j = None
  | at_exit =>
      (Job.status j = "completed" /\
       batch_predictions (Job.inputs j) = inr (Job.results j) /\
       Job.error j = None) \/
      (Job.status j = "failed" /\ Job.results j = [] /\
       exists e, batch_predictions (Job.inputs j) = inl e /\ Job.error j = Some (str e))
  end.

(** The invariant of the job store: the [i]-th thread owns the [i]-th
    identifier, its job is in the store in the state the thread's position
    implies, and every job in the store is owned by a thread. *)
Record invariant (w : world) : Prop := {
  inv_count : length (threads w) = uuid_calls w;
  inv_owner : forall i t, threads w !! i = Some t -> arg_job_id t = uuid4 i;
  inv_job : forall i t, threads w !! i = Some t ->
            exists j, jobs w !! arg_job_id t = Some j /\ job_agrees t j;
  inv_owned : forall job_id j, jobs w !! job_id = Some j ->
              exists i t, threads w !! i = Some t /\ arg_job_id t = job_id
}.

(** Two outcomes of [verify_token] agree on everything but the decoded
    claims: both are claims, or both are the same exception. *)
Definition same_verdict (a b : raises (gmap string claim)) : Prop :=
  match a, b with
  | inr _, inr _ => True
  | inl e1, inl e2 => e1 = e2
  | _, _ => False
  end.

(** A dependency or a call returned instead of raising. *)
Definition passes {A B} (x : A + B) : bool :=
  match x with
  | inr _ => true
  | inl _ => false
  end.

(** The [sub] claim of a decoded token. *)
Definition subject (payload : gmap string claim) : option claim := payload !! "sub".

(** *** [src/auth/jwt_auth.py] and [src/service_batch.py]: issuing tokens *)

Section Issuer.

(** [jwt.encode(payload, key, algorithm=...)] of PyJWT. *)
Variable jwt_encode : gmap string claim -> string -> string -> string.

(** [int(s)] on the text of an environment variable. *)
Variable int : string -> Z.

Definition JWT_EXPIRATION : Z := int (getenv "JWT_EXPIRATION_MINUTES" "30").

(** [create_token].  The clock is read twice, first for [exp] and then for
    [iat]; times are in seconds. *)
Definition create_token (now_exp now_iat : Z) (username : string) : string :=
  let payload : gmap string claim :=
    {[ "sub" := CStr username;
       "exp" := CNum (now_exp + 60 * JWT_EXPIRATION);
       "iat" := CNum now_iat ]} in
  jwt_encode payload JWT_SECRET JWT_ALGORITHM.

(** [AdmissionService.login] *)
Definition login (now_exp now_iat : Z) (username password : string) : response :=
  if validate_credentials username password
  then JSONResponse (Token (create_token now_exp now_iat username)) 200
  else JSONResponse (Error "Invalid credentials") 401.

End Issuer.

(** *** Further notions used by the statements *)

(** A string has no blank. *)
Fixpoint no_blank (s : string) : bool :=
  match s with
  | EmptyString => true
  | String c rest => negb (Ascii.eqb c " "%char) && no_blank rest
  end.

(** The part of a string before its first blank. *)
Fixpoint before_blank (s : string) : string :=
  match s with
  | EmptyString => EmptyString
  | String c rest => if Ascii.eqb c " "%char then EmptyString else String c (before_blank rest)
  end.

(** A number lies in the unit interval. *)
Definition unit_interval (x : Q) : Prop := (0 <= x)%Q /\ (x <= 1)%Q.

(** The bounds of [AdmissionInput], on a validated record. *)
Definition record_in_bounds (a : AdmissionInput) : Prop :=
  (0 <= gre_score a)%Q /\ (gre_score a <= 340 # 1)%Q /\
  (0 <= toefl_score a)%Q /\ (toefl_score a <= 120 # 1)%Q /\
  (1 <= university_rating a)%Q /\ (university_rating a <= 5 # 1)%Q /\
  (1 <= sop a)%Q /\ (sop a <= 5 # 1)%Q /\
  (1 <= lor a)%Q /\ (lor a <= 5 # 1)%Q /\
  (0 <= cgpa a)%Q /\ (cgpa a <= 10 # 1)%Q /\
  (research a = 0 \/ research a = 1)%Z.

(** A job is in a terminal state. *)
Definition terminal (j : Job.job) : Prop :=
  Job.status j = "completed" \/ Job.status j = "failed".

(** Unfolds the setters of a job record. *)
Ltac job_simpl :=
  unfold Job.set_completed_at, Job.set_error, Job.set_results, Job.set_status;
  simpl.

(** *** Assumptions on the environment *)

(** [uuid.uuid4] never returns the same identifier twice. *)
Hypothesis uuid4_inj : forall a b, uuid4 a = uuid4 b -> a = b.

(** The Predictor: the estimator maps one feature row to one number, and its
    [predict] on a matrix, when it returns, returns the Predictor's value for
    each row in order. *)
Variable Predictor : list Q -> Q.
Hypothesis batch_model_rowwise :
  forall X predictions, batch_model X = inr predictions -> predictions = map Predictor X.

(** ** Properties *)

(** *** Comprehensions *)

Lemma comprehension_length {A B} (f : A -> raises B) l bs :
  comprehension f l = inr bs -> length bs = length l.
Proof.
  revert bs. induction l as [|a l IH]; intros bs; simpl.
  - intros [= <-]. reflexivity.
  - destruct (f a) as [e|b]; simpl; [discriminate|].
    destruct (comprehension f l) as [e|bs']; simpl; [discriminate|].
    intros [= <-]. simpl. f_equal. now apply IH.
Qed.

Lemma AdmissionOutput_init_inr x r :
  AdmissionOutput_init x = inr r ->
  r = mkAdmissionOutput x /\ (0 <= x)%Q /\ (x <= 1)%Q.
Proof.
  unfold AdmissionOutput_init.
  destruct (Qle_bool 0 x) eqn:H0; simpl; [|discriminate].
  destruct (Qle_bool x 1) eqn:H1; simpl; [|discriminate].
  intros [= <-]. repeat split; now apply Qle_bool_iff.
Qed.

Lemma comprehension_AdmissionOutput ps rs :
  comprehension AdmissionOutput_init ps = inr rs ->
  rs = map mkAdmissionOutput ps /\
  Forall (fun r => (0 <= chance_of_admit r)%Q /\ (chance_of_admit r <= 1)%Q) rs.
Proof.
  revert rs. induction ps as [|p ps IH]; intros rs; simpl.
  - intros [= <-]. split; [reflexivity|constructor].
  - destruct (AdmissionOutput_init p) as [e|r] eqn:Hp; simpl; [discriminate|].
    destruct (comprehension AdmissionOutput_init ps) as [e|rs'] eqn:Hps; simpl;
      [discriminate|].
    intros [= <-]. apply AdmissionOutput_init_inr in Hp as (-> & Hlo & Hhi).
    destruct (IH rs' eq_refl) as [-> HF]. split; [reflexivity|].
    constructor; [simpl; auto|assumption].
Qed.

(** *** The order on statuses *)

Lemma status_le_refl s : status_le s s = true.
Proof. unfold status_le. now rewrite String.eqb_refl. Qed.

Lemma status_le_trans a b c :
  status_le a b = true -> status_le b c = true -> status_le a c = true.
Proof.
  unfold status_le. intros Hab Hbc.
  apply orb_true_iff in Hab as [Hab|Hab].
  { apply String.eqb_eq in Hab. now subst. }
  apply orb_true_iff in Hbc as [Hbc|Hbc].
  { apply String.eqb_eq in Hbc. subst. rewrite Hab. apply orb_true_r. }
  apply orb_true_iff. right.
  destruct (status_rank a) as [x|]; [|discriminate].
  destruct (status_rank b) as [y|]; [|discriminate].
  destruct (status_rank c) as [z|]; [|discriminate].
  apply Nat.ltb_lt in Hab, Hbc. apply Nat.ltb_lt. lia.
Qed.

(** A terminal status is followed by itself only. *)
Lemma status_le_terminal a b :
  a = "completed" \/ a = "failed" -> status_le a b = true -> b = a.
Proof.
  unfold status_le. intros Ha H.
  apply orb_true_iff in H as [H|H].
  { apply String.eqb_eq in H. now subst. }
  exfalso. destruct Ha as [-> | ->]; simpl in H;
    destruct (status_rank b) as [[|[|[|y]]]|] eqn:Hb; try discriminate;
    unfold status_rank in Hb;
    repeat (destruct (String.eqb b _); try discriminate).
Qed.

(** *** Submission *)

(** The two ways [batch_submit] returns. *)
Lemma batch_submit_cases now inputs w :
  (exists e, batch_submit now inputs w = (JSONResponse (Error (str e)) 400, w)) \/
  (exists ais,
     comprehension AdmissionInput_init inputs = inr ais /\
     (1 <= length ais <= 1000)%nat /\
     batch_submit now inputs w =
       (JSONResponse
          (JobMessage (uuid4 (uuid_calls w)) "pending" "Batch job submitted successfully")
          200,
        World (<[uuid4 (uuid_calls w) := Job.mk "pending" [] now ais None None]> (jobs w))
              (threads w ++ [Thread (uuid4 (uuid_calls w)) ais at_start])
              (S (uuid_calls w)))).
Proof.
  unfold batch_submit.
  destruct (comprehension AdmissionInput_init inputs) as [e|ais] eqn:Hc; cbn [bind].
  { left. now exists e. }
  unfold BatchAdmissionInput_init, validate_batch_size.
  destruct (length ais <? 1)%nat eqn:H1; cbn [bind].
  { left. eexists. reflexivity. }
  destruct (1000 <? length ais)%nat eqn:H2; cbn [bind].
  { left. eexists. reflexivity. }
  right. exists ais. apply Nat.ltb_ge in H1, H2. repeat split; auto.
Qed.

(** *** The invariant *)

Lemma invariant_startup : invariant startup.
Proof.
  split; simpl; try reflexivity; intros *; try rewrite lookup_nil;
    try rewrite lookup_empty; discriminate.
Qed.

(** The identifier the next submission draws is not in the store. *)
Lemma invariant_fresh w :
  invariant w -> jobs w !! uuid4 (uuid_calls w) = None.
Proof using uuid4_inj.
  intros Hinv. destruct (jobs w !! uuid4 (uuid_calls w)) as [j|] eqn:Hj; [|reflexivity].
  destruct (inv_owned w Hinv _ _ Hj) as (i & t & Hi & Hid).
  rewrite (inv_owner w Hinv _ _ Hi) in Hid. apply uuid4_inj in Hid.
  apply lookup_lt_Some in Hi. rewrite (inv_count w Hinv) in Hi. lia.
Qed.

Lemma invariant_submit now inputs w :
  invariant w -> invariant (batch_submit now inputs w).2.
Proof using uuid4_inj.
  intros Hinv.
  destruct (batch_submit_cases now inputs w) as [[e ->]|(ais & _ & _ & ->)];
    [assumption|]. simpl.
  pose proof (invariant_fresh w Hinv) as Hfresh.
  pose proof (inv_count w Hinv) as Hcount.
  split; simpl.
  - rewrite length_app. simpl. lia.
  - intros i t Hi. apply lookup_app_Some in Hi as [Hi|[Hge Hi]].
    + now apply (inv_owner w Hinv).
    + destruct (i - length (threads w))%nat as [|k] eqn:Hk; simpl in Hi; [|discriminate].
      injection Hi as <-. simpl. f_equal. lia.
  - intros i t Hi. apply lookup_app_Some in Hi as [Hi|[Hge Hi]].
    + destruct (inv_job w Hinv _ _ Hi) as (j & Hj & Hag).
      exists j. split; [|assumption].
      rewrite lookup_insert_ne; [assumption|].
      intros Heq. rewrite <- Heq in Hj. congruence.
    + destruct (i - length (threads w))%nat as [|k] eqn:Hk; simpl in Hi; [|discriminate].
      injection Hi as <-. simpl. eexists. split; [apply lookup_insert_eq|].
      split; simpl; auto.
  - intros job_id j Hj.
    destruct (decide (uuid4 (uuid_calls w) = job_id)) as [<-|Hne].
    + exists (length (threads w)), (Thread (uuid4 (uuid_calls w)) ais at_start).
      split; [|reflexivity].
      rewrite lookup_app_r by lia. now rewrite Nat.sub_diag.
    + rewrite lookup_insert_ne in Hj by assumption.
      destruct (inv_owned w Hinv _ _ Hj) as (i & t & Hi & Hid).
      exists i, t. split; [|assumption]. now apply lookup_app_l_Some.
Qed.

(** *** The background thread *)

(** One critical section of [process_batch_job], run on a job that is in the
    state the thread expects: the job is rewritten in place, the thread
    advances, the status moves forward and the inputs are kept. *)
Lemma process_batch_job_spec now t js j :
  js !! arg_job_id t = Some j -> job_agrees t j ->
  exists j' t',
    process_batch_job now t js = (<[arg_job_id t := j']> js, t') /\
    arg_job_id t' = arg_job_id t /\
    job_agrees t' j' /\
    status_le (Job.status j) (Job.status j') = true /\
    Job.inputs j' = Job.inputs j.
Proof.
  intros Hj [Hin Hag]. unfold process_batch_job, handle_error, update_job.
  rewrite Hj. destruct t as [job_id inputs p]. simpl in *.
  destruct p.
  - destruct Hag as (Hst & Hres & Herr).
    eexists _, _. split; [reflexivity|]. job_simpl. rewrite Hst.
    repeat split; auto.
  - destruct Hag as (Hst & Hres & Herr).
    destruct (batch_predictions inputs) as [e|results] eqn:Hp; simpl.
    + eexists _, _. split; [reflexivity|]. job_simpl. rewrite Hst.
      repeat split; auto. right. rewrite Hin. repeat split; auto. now exists e.
    + eexists _, _. split; [reflexivity|]. job_simpl. rewrite Hst.
      repeat split; auto. left. rewrite Hin. repeat split; auto.
  - exists j, (Thread job_id inputs at_exit).
    rewrite insert_id by assumption.
    repeat split; auto. apply status_le_refl.
Qed.

Lemma invariant_run_thread now i w :
  invariant w -> invariant (run_thread now i w).
Proof using uuid4_inj.
  intros Hinv. unfold run_thread.
  destruct (threads w !! i) as [t|] eqn:Hi; [|assumption].
  destruct (inv_job w Hinv _ _ Hi) as (j & Hj & Hag).
  destruct (process_batch_job_spec now t (jobs w) j Hj Hag)
    as (j' & t' & -> & Hid & Hag' & _ & _).
  pose proof (lookup_lt_Some _ _ _ Hi) as Hlt.
  split; simpl.
  - rewrite length_insert. apply (inv_count w Hinv).
  - intros k tk Hk. destruct (decide (k = i)) as [->|Hne].
    + rewrite list_lookup_insert_eq in Hk by assumption. injection Hk as <-.
      rewrite Hid. now apply (inv_owner w Hinv).
    + rewrite list_lookup_insert_ne in Hk by auto. now apply (inv_owner w Hinv).
  - intros k tk Hk. destruct (decide (k = i)) as [->|Hne].
    + rewrite list_lookup_insert_eq in Hk by assumption. injection Hk as <-.
      exists j'. rewrite Hid. split; [apply lookup_insert_eq|assumption].
    + rewrite list_lookup_insert_ne in Hk by auto.
      destruct (inv_job w Hinv _ _ Hk) as (jk & Hjk & Hagk).
      exists jk. split; [|assumption].
      rewrite lookup_insert_ne; [assumption|].
      rewrite (inv_owner w Hinv _ _ Hi), (inv_owner w Hinv _ _ Hk).
      intros Heq. apply uuid4_inj in Heq. congruence.
  - intros job_id jb Hjb.
    destruct (decide (arg_job_id t = job_id)) as [<-|Hne].
    + exists i, t'. split; [|assumption]. now apply list_lookup_insert_eq.
    + rewrite lookup_insert_ne in Hjb by assumption.
      destruct (inv_owned w Hinv _ _ Hjb) as (k & tk & Hk & Hidk).
      exists k, tk. split; [|assumption].
      rewrite list_lookup_insert_ne; [assumption|]. intros ->. congruence.
Qed.

Lemma invariant_step w w' : step w w' -> invariant w -> invariant w'.
Proof using uuid4_inj.
  intros [now inputs w0|now i w0] Hinv;
    [now apply invariant_submit|now apply invariant_run_thread].
Qed.

Lemma invariant_steps w w' : rtc step w w' -> invariant w -> invariant w'.
Proof using uuid4_inj. induction 1; eauto using invariant_step. Qed.

Lemma reachable_invariant w : reachable w -> invariant w.
Proof using uuid4_inj. intros H. exact (invariant_steps _ _ H invariant_startup). Qed.

(** *** Jobs in reachable states *)

(** The four shapes of a job record. *)
Lemma reachable_job_shape w job_id j :
  reachable w -> jobs w !! job_id = Some j ->
  (Job.status j = "pending" /\ Job.results j = [] /\ Job.error j = None) \/
  (Job.status j = "processing" /\ Job.results j = [] /\ Job.error j = None) \/
  (Job.status j = "completed" /\
   batch_predictions (Job.inputs j) = inr (Job.results j) /\ Job.error j = None) \/
  (Job.status j = "failed" /\ Job.results j = [] /\
   exists e, batch_predictions (Job.inputs j) = inl e /\ Job.error j = Some (str e)).
Proof using uuid4_inj.
  intros Hr Hj. apply reachable_invariant in Hr.
  destruct (inv_owned w Hr _ _ Hj) as (i & t & Hi & <-).
  destruct (inv_job w Hr _ _ Hi) as (j0 & Hj0 & _ & Hag).
  rewrite Hj in Hj0. injection Hj0 as <-.
  destruct (at_pc t); tauto.
Qed.

(** One step keeps every job in the store, moves its status forward or not
    at all, and keeps its inputs. *)
Lemma step_job_monotone w w' job_id j :
  invariant w -> step w w' -> jobs w !! job_id = Some j ->
  exists j', jobs w' !! job_id = Some j' /\
             status_le (Job.status j) (Job.status j') = true /\
             Job.inputs j' = Job.inputs j.
Proof using uuid4_inj.
  intros Hinv Hstep Hj. destruct Hstep as [now inputs w|now i w].
  - pose proof (invariant_fresh w Hinv) as Hfresh.
    destruct (batch_submit_cases now inputs w) as [[e ->]|(ais & _ & _ & ->)]; simpl.
    + exists j. auto using status_le_refl.
    + exists j. rewrite lookup_insert_ne by congruence. auto using status_le_refl.
  - unfold run_thread. destruct (threads w !! i) as [t|] eqn:Hi.
    2:{ exists j. auto using status_le_refl. }
    destruct (inv_job w Hinv _ _ Hi) as (jt & Hjt & Hag).
    destruct (process_batch_job_spec now t (jobs w) jt Hjt Hag)
      as (j' & t' & -> & _ & _ & Hle & Hin). simpl.
    destruct (decide (arg_job_id t = job_id)) as [<-|Hne].
    + rewrite Hj in Hjt. injection Hjt as <-.
      exists j'. rewrite lookup_insert_eq. auto.
    + exists j. rewrite lookup_insert_ne by assumption. auto using status_le_refl.
Qed.

Lemma steps_job_monotone w w' job_id j :
  invariant w -> rtc step w w' -> jobs w !! job_id = Some j ->
  exists j', jobs w' !! job_id = Some j' /\
             status_le (Job.status j) (Job.status j') = true /\
             Job.inputs j' = Job.inputs j.
Proof using uuid4_inj.
  intros Hinv Hsteps. revert j Hinv.
  induction Hsteps as [w|w w1 w2 Hstep Hsteps IH]; intros j Hinv Hj.
  - exists j. auto using status_le_refl.
  - destruct (step_job_monotone _ _ _ _ Hinv Hstep Hj) as (j1 & Hj1 & Hle1 & Hin1).
    destruct (IH j1 (invariant_step _ _ Hstep Hinv) Hj1) as (j2 & Hj2 & Hle2 & Hin2).
    exists j2. repeat split; [assumption| |congruence].
    eapply status_le_trans; eassumption.
Qed.

Lemma comprehension_lookup {A B} (f : A -> raises B) l bs i a :
  comprehension f l = inr bs -> l !! i = Some a ->
  exists b, f a = inr b /\ bs !! i = Some b.
Proof.
  revert bs i. induction l as [|x l IH]; intros bs i; simpl; [discriminate|].
  destruct (f x) as [e|b] eqn:Hx; simpl; [discriminate|].
  destruct (comprehension f l) as [e|bs'] eqn:Hl; simpl; [discriminate|].
  intros [= <-] Hi. destruct i as [|i]; simpl in *.
  - injection Hi as <-. now exists b.
  - now apply IH.
Qed.

(** The results of a completed job, in terms of its inputs. *)
Lemma completed_results w job_id j :
  reachable w -> jobs w !! job_id = Some j -> Job.status j = "completed" ->
  Job.results j =
    map (fun inp => mkAdmissionOutput (Predictor (features_row inp))) (Job.inputs j) /\
  Forall (fun r => (0 <= chance_of_admit r)%Q /\ (chance_of_admit r <= 1)%Q)
         (Job.results j).
Proof using uuid4_inj batch_model_rowwise.
  intros Hr Hj Hst.
  destruct (reachable_job_shape _ _ _ Hr Hj)
    as [(H & _)|[(H & _)|[(_ & Hp & _)|(H & _)]]]; try congruence.
  unfold batch_predictions in Hp.
  destruct (batch_model (map features_row (Job.inputs j))) as [e|ps] eqn:Hm;
    simpl in Hp; [discriminate|].
  apply batch_model_rowwise in Hm. subst ps.
  apply comprehension_AdmissionOutput in Hp as [-> HF].
  rewrite !map_map in *. split; [reflexivity|assumption].
Qed.

Lemma map_lookup_Some {A B} (f : A -> B) (l : list A) i a :
  l !! i = Some a -> map f l !! i = Some (f a).
Proof.
  revert i. induction l as [|x l IH]; intros [|i]; simpl; try discriminate.
  - now intros [= <-].
  - apply IH.
Qed.

(** An authenticated GET request is answered by its handler. *)
Lemma serve_get_authenticated now r job_id auth_header js :
  authenticated now r job_id auth_header = true ->
  serve_get now r job_id auth_header js =
    match r with
    | batch_status => batch_status_get job_id js
    | batch_results => batch_results_get job_id js
    end.
Proof.
  unfold authenticated, serve_get.
  destruct (result (dispatch now (route_path r job_id) auth_header)); try discriminate.
  destruct (security auth_header) as [?|credentials]; try discriminate.
  destruct (get_current_user now credentials); [discriminate|reflexivity].
Qed.

(** *** The claims on the job lifecycle *)

(** C1. A job that reaches [completed] holds one prediction output per
    submitted input, in input order: if a submission of [raw] is accepted and
    the job it created is later found completed, then the stored results are
    as many as the submitted inputs, and the result at index [i] is the
    Predictor's value on the validated input at index [i]. *)
Theorem C1_completed_results_follow_inputs now raw w0 w j :
  reachable w0 ->
  status_code (batch_submit now raw w0).1 = 200%nat ->
  rtc step (batch_submit now raw w0).2 w ->
  jobs w !! uuid4 (uuid_calls w0) = Some j ->
  Job.status j = "completed" ->
  length (Job.results j) = length raw /\
  length (Job.results j) = length (Job.inputs j) /\
  forall i inp, raw !! i = Some inp ->
    exists a, AdmissionInput_init inp = inr a /\
              Job.inputs j !! i = Some a /\
              Job.results j !! i =
                Some (mkAdmissionOutput (Predictor (features_row a))).
Proof using uuid4_inj batch_model_rowwise.
  intros Hr0 Hcode Hsteps Hj Hst.
  assert (Hr1 : reachable (batch_submit now raw w0).2).
  { eapply rtc_r; [exact Hr0|constructor]. }
  assert (Hr : reachable w) by (eapply rtc_trans; eassumption).
  destruct (batch_submit_cases now raw w0) as [[e He]|(ais & Hc & _ & He)];
    rewrite He in *; simpl in *; [discriminate|].
  destruct (steps_job_monotone _ w (uuid4 (uuid_calls w0)) _
              (reachable_invariant _ Hr1) Hsteps (lookup_insert_eq _ _ _))
    as (j' & Hj' & _ & Hin).
  rewrite Hj in Hj'. injection Hj' as <-. simpl in Hin.
  destruct (completed_results _ _ _ Hr Hj Hst) as [Hres _].
  rewrite Hres, Hin, length_map.
  split; [now apply comprehension_length in Hc|]. split; [reflexivity|].
  intros i inp Hi.
  destruct (comprehension_lookup _ _ _ _ _ Hc Hi) as (a & Ha & Hai).
  exists a. repeat split; [assumption..|].
  now apply (map_lookup_Some (fun inp => mkAdmissionOutput (Predictor (features_row inp)))).
Qed.

(** C2. The status of a job only moves forward along
    [pending < processing < {completed, failed}]: along every execution from
    a reachable state the job stays in the store, its later status is the
    earlier one or one that follows it in the order (so never an earlier one,
    and never the other terminal status), a terminal status is kept for
    good, and two status queries in a row report statuses in that order. *)
Theorem C2_status_monotone w w' job_id j :
  reachable w -> rtc step w w' -> jobs w !! job_id = Some j ->
  exists j',
    jobs w' !! job_id = Some j' /\
    status_le (Job.status j) (Job.status j') = true /\
    (Job.status j = "completed" \/ Job.status j = "failed" ->
     Job.status j' = Job.status j) /\
    batch_status_get job_id (jobs w) =
      JSONResponse (JobStatus job_id (Job.status j)) 200 /\
    batch_status_get job_id (jobs w') =
      JSONResponse (JobStatus job_id (Job.status j')) 200.
Proof using uuid4_inj.
  intros Hr Hsteps Hj.
  destruct (steps_job_monotone _ _ _ _ (reachable_invariant _ Hr) Hsteps Hj)
    as (j' & Hj' & Hle & _).
  exists j'. unfold batch_status_get. rewrite Hj, Hj'.
  repeat split; try assumption.
  intros Hterm. now apply status_le_terminal.
Qed.

(** C3. In every reachable state a job has results only when it is
    completed, has an error cause exactly when it is failed, and a failed
    job has no results at all. *)
Theorem C3_results_and_error_follow_status w job_id j :
  reachable w -> jobs w !! job_id = Some j ->
  (Job.results j <> [] -> Job.status j = "completed") /\
  (is_Some (Job.error j) <-> Job.status j = "failed") /\
  (Job.status j = "failed" -> Job.results j = []).
Proof using uuid4_inj.
  intros Hr Hj.
  destruct (reachable_job_shape _ _ _ Hr Hj)
    as [(Hst & Hres & Herr)|[(Hst & Hres & Herr)|[(Hst & Hres & Herr)
       |(Hst & Hres & e & _ & Herr)]]];
    rewrite Hst, Herr; (split; [congruence|]); (split; [|congruence]); split;
    try discriminate; try (intros [x Hx]; discriminate Hx);
    try reflexivity; intros _; now exists (str e).
Qed.

(** C5. The answer to an authenticated results query on a known job is
    determined by the job's status: 202 with the still-processing message
    for [pending] and [processing], 500 with the recorded cause for
    [failed], and 200 with the identifier, the status, the stored results
    and a count equal to the number of inputs for [completed]; there is no
    other status. *)
Theorem C5_results_by_status now w job_id j auth_header :
  reachable w -> jobs w !! job_id = Some j ->
  authenticated now batch_results job_id auth_header = true ->
  let r := serve_get now batch_results job_id auth_header (jobs w) in
  (Job.status j = "pending" \/ Job.status j = "processing" ->
   r = JSONResponse (JobMessage job_id (Job.status j) "Job is still processing") 202) /\
  (Job.status j = "failed" ->
   exists cause, Job.error j = Some cause /\
                 r = HTTPException 500 (JobFailure job_id "failed" cause)) /\
  (Job.status j = "completed" ->
   r = JSONResponse
         (JobResults job_id "completed" (Job.results j) (length (Job.inputs j))) 200) /\
  (Job.status j = "pending" \/ Job.status j = "processing" \/
   Job.status j = "failed" \/ Job.status j = "completed").
Proof using uuid4_inj batch_model_rowwise.
  intros Hr Hj Hauth r. subst r.
  rewrite (serve_get_authenticated _ _ _ _ _ Hauth).
  unfold batch_results_get. rewrite Hj.
  destruct (reachable_job_shape _ _ _ Hr Hj)
    as [(Hst & Hres & Herr)|[(Hst & Hres & Herr)|[(Hst & Hres & Herr)
       |(Hst & Hres & e & _ & Herr)]]]; rewrite Hst; simpl.
  - split; [reflexivity|]. repeat split; try discriminate. auto.
  - split; [reflexivity|]. repeat split; try discriminate. auto.
  - split; [intros [H|H]; discriminate H|].
    split; [discriminate|]. split; [|auto].
    intros _. destruct (completed_results _ _ _ Hr Hj Hst) as [Hmap _].
    assert (Hlen : length (Job.results j) = length (Job.inputs j))
      by (rewrite Hmap; apply length_map).
    now rewrite Hlen.
  - split; [intros [H|H]; discriminate H|].
    split; [|split; [discriminate|auto]].
    intros _. exists (str e). rewrite Herr. auto.
Qed.

(** *** Validation of a submission *)

Lemma float_field_accepts d name lo hi :
  (exists v, float_field d name lo hi = inr v) <-> within lo hi (d !! name).
Proof.
  unfold float_field, within. destruct (d !! name) as [v|].
  - destruct (Qle_bool lo v) eqn:Hlo; simpl.
    + destruct (Qle_bool v hi) eqn:Hhi; simpl.
      * apply Qle_bool_iff in Hlo, Hhi. split; intros _; eauto.
      * split; [intros [? [=]]|].
        intros (v' & [= <-] & _ & H). apply Qle_bool_iff in H. congruence.
    + split; [intros [? [=]]|].
      intros (v' & [= <-] & H & _). apply Qle_bool_iff in H. congruence.
  - split; [intros [? [=]]|intros (? & [=] & _)].
Qed.

(** A rational is an integer between 0 and 1 exactly when it is 0 or 1. *)
Lemma zero_or_one v :
  ((Qnum v mod Zpos (Qden v) =? 0)%Z = true /\
   (0 <=? Qnum v / Zpos (Qden v))%Z = true /\
   (Qnum v / Zpos (Qden v) <=? 1)%Z = true) <->
  (v == 0 \/ v == 1)%Q.
Proof.
  destruct v as [n d]. unfold Qeq. simpl.
  rewrite Z.eqb_eq, !Z.leb_le.
  pose proof (Z.div_mod n (Zpos d) ltac:(lia)) as Hdm.
  split.
  - intros (Hm & H0 & H1). rewrite Hm in Hdm.
    assert (Hq : (n / Zpos d = 0 \/ n / Zpos d = 1)%Z) by lia.
    destruct Hq as [Hq|Hq]; rewrite Hq in Hdm; [left|right]; lia.
  - intros [H|H].
    + assert (n = 0)%Z as -> by lia. rewrite Zmod_0_l, Zdiv_0_l. lia.
    + assert (n = Zpos d)%Z as -> by lia.
      rewrite Z_mod_same_full, Z_div_same_full by lia. lia.
Qed.

Lemma research_field_accepts d :
  (exists n, int_field d "research" 0 1 = inr n) <->
  (exists v, d !! "research" = Some v /\ (v == 0 \/ v == 1)%Q).
Proof.
  unfold int_field. destruct (d !! "research") as [v|].
  2:{ split; [intros [? [=]]|intros (? & [=] & _)]. }
  pose proof (zero_or_one v) as Hz.
  destruct (Qnum v mod Z.pos (Qden v) =? 0)%Z; simpl.
  - destruct (0 <=? Qnum v / Z.pos (Qden v))%Z; simpl.
    + destruct (Qnum v / Z.pos (Qden v) <=? 1)%Z; simpl.
      * split; intros _; [exists v; split; [reflexivity|tauto]|eauto].
      * split; [intros [? [=]]|]. intros (v' & [= <-] & H).
        apply Hz in H. destruct H as (_ & _ & [=]).
    + split; [intros [? [=]]|]. intros (v' & [= <-] & H).
      apply Hz in H. destruct H as (_ & [=] & _).
  - split; [intros [? [=]]|]. intros (v' & [= <-] & H).
    apply Hz in H. destruct H as ([=] & _).
Qed.

(** The constructor of [AdmissionInput] accepts exactly the dictionaries
    within the documented bounds. *)
Lemma AdmissionInput_init_accepts inp :
  (exists a, AdmissionInput_init inp = inr a) <-> in_bounds inp.
Proof.
  unfold in_bounds.
  rewrite <- !float_field_accepts, <- research_field_accepts.
  unfold AdmissionInput_init.
  destruct (float_field inp "gre_score" 0 (340 # 1)) as [?|?];
    [split; [intros [? [=]]|intros ([? [=]] & _)]|].
  destruct (float_field inp "toefl_score" 0 (120 # 1)) as [?|?];
    [split; [intros [? [=]]|intros (_ & [? [=]] & _)]|].
  destruct (float_field inp "university_rating" 1 (5 # 1)) as [?|?];
    [split; [intros [? [=]]|intros (_ & _ & [? [=]] & _)]|].
  destruct (float_field inp "sop" 1 (5 # 1)) as [?|?];
    [split; [intros [? [=]]|intros (_ & _ & _ & [? [=]] & _)]|].
  destruct (float_field inp "lor" 1 (5 # 1)) as [?|?];
    [split; [intros [? [=]]|intros (_ & _ & _ & _ & [? [=]] & _)]|].
  destruct (float_field inp "cgpa" 0 (10 # 1)) as [?|?];
    [split; [intros [? [=]]|intros (_ & _ & _ & _ & _ & [? [=]] & _)]|].
  destruct (int_field inp "research" 0 1) as [?|?];
    [split; [intros [? [=]]|intros (_ & _ & _ & _ & _ & _ & [? [=]])]|].
  simpl. split; intros _; repeat split; eauto.
Qed.

Lemma comprehension_accepts {A B} (f : A -> raises B) l :
  (exists bs, comprehension f l = inr bs) <-> Forall (fun a => exists b, f a = inr b) l.
Proof.
  induction l as [|a l IH]; simpl.
  - split; [constructor|eauto].
  - rewrite Forall_cons, <- IH.
    destruct (f a) as [e|b]; simpl; [split; [intros [? [=]]|intros ([? [=]] & _)]|].
    destruct (comprehension f l) as [e|bs]; simpl;
      [split; [intros [? [=]]|intros (_ & [? [=]])]|].
    split; intros _; eauto.
Qed.

(** C4. Batch submit accepts exactly the batches of 1 to 1000 inputs that
    all lie within the field bounds; every other batch is answered with 400
    and leaves the state as it was: no job in the store, no thread started
    and no identifier drawn.  In particular an empty batch and a batch of
    1001 inputs are answered with 400, and a batch of 1000 inputs within
    bounds is accepted. *)
Theorem C4_batch_submit_validation now inputs w :
  let r := (batch_submit now inputs w).1 in
  let w' := (batch_submit now inputs w).2 in
  (status_code r = 200%nat <->
   (1 <= length inputs <= 1000)%nat /\ Forall in_bounds inputs) /\
  (status_code r <> 200%nat -> status_code r = 400%nat /\ w' = w) /\
  (length inputs = 0%nat -> status_code r = 400%nat /\ w' = w) /\
  (length inputs = 1001%nat -> status_code r = 400%nat /\ w' = w) /\
  (length inputs = 1000%nat -> Forall in_bounds inputs -> status_code r = 200%nat).
Proof.
  clear uuid4_inj batch_model_rowwise.
  intros r w'. subst r w'.
  assert (Hiff : status_code (batch_submit now inputs w).1 = 200%nat <->
                 (1 <= length inputs <= 1000)%nat /\ Forall in_bounds inputs).
  { destruct (batch_submit_cases now inputs w) as [[e He]|(ais & Hc & Hlen & He)].
    - rewrite He. simpl. split; [discriminate|]. intros [Hlen HF]. exfalso.
      assert (Hall : Forall (fun a => exists b, AdmissionInput_init a = inr b) inputs).
      { eapply Forall_impl; [exact HF|]. intros a Ha. now apply AdmissionInput_init_accepts. }
      apply comprehension_accepts in Hall as [ais Hc].
      pose proof (comprehension_length _ _ _ Hc) as Hl.
      revert He. unfold batch_submit. rewrite Hc. cbn [bind].
      unfold BatchAdmissionInput_init, validate_batch_size.
      destruct (length ais <? 1)%nat eqn:H1; [apply Nat.ltb_lt in H1; lia|].
      destruct (1000 <? length ais)%nat eqn:H2; [apply Nat.ltb_lt in H2; lia|].
      cbn [bind]. discriminate.
    - rewrite He. simpl. split; [intros _|reflexivity].
      rewrite <- (comprehension_length _ _ _ Hc). split; [assumption|].
      assert (Hall : Forall (fun a => exists b, AdmissionInput_init a = inr b) inputs)
        by (apply comprehension_accepts; eauto).
      eapply Forall_impl; [exact Hall|]. intros a Ha. now apply AdmissionInput_init_accepts. }
  assert (Hrej : status_code (batch_submit now inputs w).1 <> 200%nat ->
                 status_code (batch_submit now inputs w).1 = 400%nat /\
                 (batch_submit now inputs w).2 = w).
  { destruct (batch_submit_cases now inputs w) as [[e He]|(ais & _ & _ & He)];
      rewrite He; simpl; [auto|congruence]. }
  split; [exact Hiff|]. split; [exact Hrej|].
  split; [|split].
  - intros H0. apply Hrej. rewrite Hiff. lia.
  - intros H0. apply Hrej. rewrite Hiff. lia.
  - intros H0 HF. apply Hiff. split; [lia|assumption].
Qed.

(** *** The authentication gate *)

Lemma split_blank_nonempty s : split_blank s <> [].
Proof.
  destruct s as [|c s]; simpl; [discriminate|].
  destruct (Ascii.eqb c " "); [discriminate|].
  destruct (split_blank s); discriminate.
Qed.

(** A header that starts with the scheme is not empty and has a second
    piece. *)
Lemma bearer_header h :
  startswith h "Bearer " = true ->
  String.eqb h "" = false /\ exists token, split_blank h !! 1%nat = Some token.
Proof.
  unfold startswith. intros H.
  do 7 (destruct h as [|? h]; simpl in H; [discriminate|];
        match type of H with
        | (if ?d then _ else _) = true => destruct d as [<-|]; [|discriminate]
        end).
  split; [reflexivity|]. simpl.
  destruct (split_blank h) as [|token rest] eqn:Hs.
  - now apply split_blank_nonempty in Hs.
  - now exists token.
Qed.

(** The paths of the batch routes are not exempt. *)
Lemma route_path_protected r job_id :
  existsb (startswith (route_path r job_id)) PUBLIC_PATHS = false.
Proof. destruct r; reflexivity. Qed.

(** [dispatch] on a protected path and a header with the scheme. *)
Lemma dispatch_bearer now path h :
  existsb (startswith path) PUBLIC_PATHS = false ->
  startswith h "Bearer " = true ->
  exists token,
    split_blank h !! 1%nat = Some token /\
    dispatch now path (Some h) =
      mkDispatched
        match verify_token now token with
        | inl ExpiredSignatureError => respond (JSONResponse (Error "Token expired") 401)
        | inl InvalidTokenError => respond (JSONResponse (Error "Invalid token") 401)
        | inl e => propagate e
        | inr _ => call_next
        end [token].
Proof.
  intros Hpath Hh. destruct (bearer_header h Hh) as (Hne & token & Htok).
  exists token. split; [assumption|].
  unfold dispatch. rewrite Hpath, Hne, Hh, Htok. simpl.
  destruct (verify_token now token) as [[]|]; reflexivity.
Qed.

(** [dispatch] on a protected path and a header without the scheme. *)
Lemma dispatch_without_bearer now path auth_header :
  existsb (startswith path) PUBLIC_PATHS = false ->
  match auth_header with
  | None => True
  | Some h => startswith h "Bearer " = false
  end ->
  dispatch now path auth_header =
    mkDispatched (respond (JSONResponse (Error "Missing or invalid token") 401)) [].
Proof.
  intros Hpath. unfold dispatch. rewrite Hpath.
  destruct auth_header as [h|]; [|reflexivity].
  intros ->. simpl. now rewrite orb_true_r.
Qed.

(** C6. A request whose path starts with an exempt prefix passes without
    any token verification.  On every other path a request without an
    [Authorization] header, or with one that does not start with the Bearer
    scheme, is answered 401 and no token is verified; a request with the
    scheme has its token verified once, is answered 401 "Token expired" when
    the token is expired and 401 "Invalid token" when it is invalid, and
    passes exactly when the token verifies. *)
Theorem C6_dispatch now path auth_header :
  (existsb (startswith path) PUBLIC_PATHS = true ->
   dispatch now path auth_header = mkDispatched call_next []) /\
  (existsb (startswith path) PUBLIC_PATHS = false ->
   (match auth_header with
    | None => True
    | Some h => startswith h "Bearer " = false
    end ->
    dispatch now path auth_header =
      mkDispatched (respond (JSONResponse (Error "Missing or invalid token") 401)) []) /\
   (forall h, auth_header = Some h -> startswith h "Bearer " = true ->
    exists token,
      split_blank h !! 1%nat = Some token /\
      verified (dispatch now path auth_header) = [token] /\
      (verify_token now token = inl ExpiredSignatureError ->
       result (dispatch now path auth_header) =
         respond (JSONResponse (Error "Token expired") 401)) /\
      (verify_token now token = inl InvalidTokenError ->
       result (dispatch now path auth_header) =
         respond (JSONResponse (Error "Invalid token") 401)) /\
      (result (dispatch now path auth_header) = call_next <->
       exists payload, verify_token now token = inr payload))).
Proof.
  split.
  - intros Hpub. unfold dispatch. now rewrite Hpub.
  - intros Hpath. split.
    + now apply dispatch_without_bearer.
    + intros h -> Hh.
      destruct (dispatch_bearer now path h Hpath Hh) as (token & Htok & ->).
      exists token. simpl. split; [assumption|]. split; [reflexivity|].
      split; [now intros ->|]. split; [now intros ->|].
      destruct (verify_token now token) as [[]|payload]; split;
        try discriminate; try (intros [? [=]]); eauto.
Qed.

(** C10. The gate never looks at the claims of a token.  What decides is
    the verdict of the library's [jwt.decode] under the configured secret
    and algorithm, which checks the signature and the expiry.  Two requests
    on a protected path whose tokens get the same verdict from it, whatever
    their subjects, get the same outcome from the middleware and from the
    token dependency of the GET routes; and a token that it decodes is
    accepted by both when its subject is not the configured user. *)
Theorem C10_subject_is_not_consulted now path h1 h2 t1 t2 :
  existsb (startswith path) PUBLIC_PATHS = false ->
  startswith h1 "Bearer " = true -> startswith h2 "Bearer " = true ->
  split_blank h1 !! 1%nat = Some t1 -> split_blank h2 !! 1%nat = Some t2 ->
  (same_verdict (jwt_decode t1 JWT_SECRET [JWT_ALGORITHM] now)
                (jwt_decode t2 JWT_SECRET [JWT_ALGORITHM] now) ->
   result (dispatch now path (Some h1)) = result (dispatch now path (Some h2)) /\
   passes (get_current_user now t1) = passes (get_current_user now t2)) /\
  (forall payload,
     jwt_decode t1 JWT_SECRET [JWT_ALGORITHM] now = inr payload ->
     subject payload <> Some (CStr API_USERNAME) ->
     result (dispatch now path (Some h1)) = call_next /\
     get_current_user now t1 = inr payload).
Proof.
  intros Hpath Hh1 Hh2 Ht1 Ht2.
  destruct (dispatch_bearer now path h1 Hpath Hh1) as (t1' & Ht1' & ->).
  destruct (dispatch_bearer now path h2 Hpath Hh2) as (t2' & Ht2' & ->).
  rewrite Ht1 in Ht1'. rewrite Ht2 in Ht2'.
  injection Ht1' as <-. injection Ht2' as <-.
  unfold get_current_user, verify_token. simpl. split.
  - unfold same_verdict.
    destruct (jwt_decode t1 JWT_SECRET [JWT_ALGORITHM] now) as [e1|p1],
             (jwt_decode t2 JWT_SECRET [JWT_ALGORITHM] now) as [e2|p2];
      intros Hsame; try destruct Hsame; split; reflexivity.
  - intros payload -> _. split; reflexivity.
Qed.

(** C7, as the code has it.  A query for an identifier that is not in the
    store is answered 404 when the request is authenticated.  A request
    without an [Authorization] header, or with one that does not start with
    the Bearer scheme, is answered 401 by the middleware, whether or not the
    job exists. *)
Theorem C7_unknown_job_authenticated now r job_id auth_header js :
  (js !! job_id = None ->
   authenticated now r job_id auth_header = true ->
   serve_get now r job_id auth_header js = HTTPException 404 (Detail "Job not found")) /\
  (match auth_header with
   | None => True
   | Some h => startswith h "Bearer " = false
   end ->
   serve_get now r job_id auth_header js =
     JSONResponse (Error "Missing or invalid token") 401).
Proof.
  split.
  - intros Hj Hauth. rewrite (serve_get_authenticated _ _ _ _ _ Hauth).
    unfold batch_status_get, batch_results_get. rewrite Hj. now destruct r.
  - intros Hh. unfold serve_get.
    now rewrite (dispatch_without_bearer now _ _ (route_path_protected r job_id) Hh).
Qed.

(** The outputs of a completed job lie between 0 and 1, whatever the
    estimator returns: [AdmissionOutput] rejects every other value, and a
    rejected value fails the job. *)
Lemma completed_results_bounded w job_id j :
  reachable w -> jobs w !! job_id = Some j -> Job.status j = "completed" ->
  Forall (fun r => (0 <= chance_of_admit r)%Q /\ (chance_of_admit r <= 1)%Q)
         (Job.results j).
Proof using uuid4_inj.
  intros Hr Hj Hst.
  destruct (reachable_job_shape _ _ _ Hr Hj)
    as [(H & _)|[(H & _)|[(_ & Hp & _)|(H & _)]]]; try congruence.
  unfold batch_predictions in Hp.
  destruct (batch_model (map features_row (Job.inputs j))) as [e|ps];
    simpl in Hp; [discriminate|].
  now apply comprehension_AdmissionOutput in Hp as [_ HF].
Qed.

(** *** Issuing tokens *)

(** [login] answers 200 with a token exactly when both the user name and
    the password are the configured ones; every other pair is answered 401
    "Invalid credentials", and the token in a 200 answer is the one
    [create_token] makes for that user name. *)
Lemma login_accepts_configured_credentials jwt_encode int now_exp now_iat
    username password :
  (username = API_USERNAME /\ password = API_PASSWORD ->
   login jwt_encode int now_exp now_iat username password =
     JSONResponse (Token (create_token jwt_encode int now_exp now_iat username)) 200) /\
  (~ (username = API_USERNAME /\ password = API_PASSWORD) ->
   login jwt_encode int now_exp now_iat username password =
     JSONResponse (Error "Invalid credentials") 401).
Proof.
  unfold login, validate_credentials. split.
  - intros [-> ->]. now rewrite !String.eqb_refl.
  - intros Hne.
    destruct (String.eqb username API_USERNAME) eqn:Hu; [|reflexivity].
    destruct (String.eqb password API_PASSWORD) eqn:Hp; [|reflexivity].
    apply String.eqb_eq in Hu, Hp. exfalso. apply Hne. now split.
Qed.

(** When the environment sets neither [API_USERNAME] nor [API_PASSWORD],
    the pair [admin]/[secret123] logs in and no other pair does. *)
Lemma login_default_credentials jwt_encode int now_exp now_iat username password :
  environ !! "API_USERNAME" = None -> environ !! "API_PASSWORD" = None ->
  status_code (login jwt_encode int now_exp now_iat username password) = 200%nat <->
  username = "admin" /\ password = "secret123".
Proof.
  intros Hu Hp. unfold login, validate_credentials, API_USERNAME, API_PASSWORD, getenv.
  rewrite Hu, Hp. simpl.
  destruct (String.eqb username "admin") eqn:Eu; simpl.
  - destruct (String.eqb password "secret123") eqn:Ep; simpl.
    + apply String.eqb_eq in Eu, Ep. split; [intros _; now split|reflexivity].
    + apply String.eqb_neq in Ep. split; [discriminate|]. intros [_ H]. now destruct Ep.
  - apply String.eqb_neq in Eu. split; [discriminate|]. intros [H _]. now destruct Eu.
Qed.

(** *** The token of a Bearer header *)

Lemma split_blank_head s :
  exists rest, split_blank s = before_blank s :: rest.
Proof.
  induction s as [|c s [rest IH]]; simpl; [now exists []|].
  destruct (Ascii.eqb c " "); [eauto|]. rewrite IH. eauto.
Qed.

Lemma before_blank_no_blank s : no_blank s = true -> before_blank s = s.
Proof.
  induction s as [|c s IH]; simpl; [reflexivity|].
  destruct (Ascii.eqb c " "); simpl; [discriminate|].
  intros H. now rewrite IH.
Qed.

Lemma startswith_append p s : startswith (p +:+ s) p = true.
Proof.
  unfold startswith. induction p as [|c p IH]; simpl; [now destruct s|].
  destruct (ascii_dec c c); [assumption|congruence].
Qed.

(** On a protected path the middleware verifies, of the header
    ["Bearer " +:+ text], the part of [text] before its first blank, once,
    and lets the request pass exactly when that part verifies.  A token
    without blanks is therefore verified as it was sent; what follows a
    blank is ignored. *)
Lemma dispatch_verifies_first_piece now path text :
  existsb (startswith path) PUBLIC_PATHS = false ->
  verified (dispatch now path (Some ("Bearer " +:+ text))) = [before_blank text] /\
  (result (dispatch now path (Some ("Bearer " +:+ text))) = call_next <->
   exists payload, verify_token now (before_blank text) = inr payload) /\
  (no_blank text = true -> before_blank text = text).
Proof.
  intros Hpath.
  destruct (dispatch_bearer now path ("Bearer " +:+ text) Hpath
              (startswith_append "Bearer " text)) as (token & Htoken & ->).
  destruct (split_blank_head text) as [rest Hrest].
  change (split_blank ("Bearer " +:+ text)) with ("Bearer" :: split_blank text)
    in Htoken.
  rewrite Hrest in Htoken. injection Htoken as <-. simpl. split; [reflexivity|].
  split; [|apply before_blank_no_blank].
  destruct (verify_token now (before_blank text)) as [[]|payload]; split;
    try discriminate; try (intros [? [=]]); eauto.
Qed.

(** Exemption is by prefix: every path that extends an exempt path passes
    the middleware, with any header or none, and no token is verified. *)
Lemma dispatch_exempt_prefix now p suffix auth_header :
  In p PUBLIC_PATHS ->
  dispatch now (p +:+ suffix) auth_header = mkDispatched call_next [].
Proof.
  intros Hp. unfold dispatch.
  assert (H : existsb (startswith (p +:+ suffix)) PUBLIC_PATHS = true).
  { apply existsb_exists. exists p. split; [assumption|apply startswith_append]. }
  now rewrite H.
Qed.

(** *** The lifecycle of a job *)

(** [process_batch_job] on a job that is in the store, by position. *)
Lemma process_batch_job_cases now t js j :
  js !! arg_job_id t = Some j ->
  process_batch_job now t js =
    match at_pc t with
    | at_start =>
        (<[arg_job_id t := Job.set_status "processing" j]> js,
         Thread (arg_job_id t) (arg_inputs t) at_predict)
    | at_predict =>
        match batch_predictions (arg_inputs t) with
        | inr results =>
            (<[arg_job_id t :=
                 Job.set_completed_at now
                   (Job.set_results results (Job.set_status "completed" j))]> js,
             Thread (arg_job_id t) (arg_inputs t) at_exit)
        | inl e =>
            (<[arg_job_id t :=
                 Job.set_completed_at now
                   (Job.set_error (str e) (Job.set_status "failed" j))]> js,
             Thread (arg_job_id t) (arg_inputs t) at_exit)
        end
    | at_exit => (js, t)
    end.
Proof.
  intros Hj. unfold process_batch_job, handle_error, update_job. rewrite Hj.
  destruct (at_pc t); [reflexivity| |reflexivity].
  destruct (batch_predictions (arg_inputs t)); reflexivity.
Qed.

(** A thread's critical section leaves every job but its own as it is. *)
Lemma process_batch_job_frame now t js job_id :
  job_id <> arg_job_id t ->
  (process_batch_job now t js).1 !! job_id = js !! job_id.
Proof.
  intros Hne. unfold process_batch_job, handle_error, update_job.
  destruct (at_pc t); [| |reflexivity].
  - destruct (js !! arg_job_id t); simpl; [|reflexivity].
    now rewrite lookup_insert_ne.
  - destruct (batch_predictions (arg_inputs t)); simpl;
      (destruct (js !! arg_job_id t); simpl; [|reflexivity]);
      now rewrite lookup_insert_ne.
Qed.

(** The same for the scheduler: when thread [i] runs, a job that is not the
    one named in its arguments is not touched, whether the run ends in
    success or in failure. *)
Lemma run_thread_frame now i w t job_id :
  threads w !! i = Some t -> job_id <> arg_job_id t ->
  jobs (run_thread now i w) !! job_id = jobs w !! job_id.
Proof.
  intros Hi Hne. unfold run_thread. rewrite Hi.
  pose proof (process_batch_job_frame now t (jobs w) job_id Hne) as H.
  destruct (process_batch_job now t (jobs w)) as [js' t']. exact H.
Qed.

(** An induction principle over the life of a job: a property that holds of
    a job as [batch_submit] creates it, and that is kept by each of the
    three writes of [process_batch_job] on a job in the status that write
    finds, holds of every job in every reachable state. *)
Lemma job_lifecycle_ind (P : Job.job -> Prop) :
  (forall now raw ais,
     comprehension AdmissionInput_init raw = inr ais ->
     (1 <= length ais <= 1000)%nat ->
     P (Job.mk "pending" [] now ais None None)) ->
  (forall j, P j -> Job.status j = "pending" ->
     P (Job.set_status "processing" j)) ->
  (forall now j results,
     P j -> Job.status j = "processing" ->
     batch_predictions (Job.inputs j) = inr results ->
     P (Job.set_completed_at now
          (Job.set_results results (Job.set_status "completed" j)))) ->
  (forall now j e,
     P j -> Job.status j = "processing" ->
     batch_predictions (Job.inputs j) = inl e ->
     P (Job.set_completed_at now (Job.set_error (str e) (Job.set_status "failed" j)))) ->
  forall w, reachable w -> forall job_id j, jobs w !! job_id = Some j -> P j.
Proof using uuid4_inj.
  intros Hnew Hstart Hdone Hfail w Hr. unfold reachable in Hr.
  revert w Hr.
  apply (rtc_ind_r (fun w => forall job_id j, jobs w !! job_id = Some j -> P j)).
  { intros job_id j Hj. simpl in Hj. now rewrite lookup_empty in Hj. }
  intros w w' Hr Hstep IH.
  pose proof (reachable_invariant _ Hr) as Hinv.
  intros job_id j. destruct Hstep as [now raw w|now i w].
  - destruct (batch_submit_cases now raw w) as [[e ->]|(ais & Hc & Hlen & ->)]; simpl.
    + apply IH.
    + destruct (decide (uuid4 (uuid_calls w) = job_id)) as [<-|Hne].
      * rewrite lookup_insert_eq. intros [= <-]. eapply Hnew; eassumption.
      * rewrite lookup_insert_ne by assumption. apply IH.
  - destruct (threads w !! i) as [t|] eqn:Hi.
    2:{ unfold run_thread. rewrite Hi. apply IH. }
    destruct (decide (job_id = arg_job_id t)) as [->|Hne].
    2:{ rewrite (run_thread_frame now i w t job_id Hi Hne). apply IH. }
    destruct (inv_job w Hinv _ _ Hi) as (jt & Hjt & Hin & Hag).
    unfold run_thread. rewrite Hi, (process_batch_job_cases now t (jobs w) jt Hjt).
    destruct (at_pc t).
    + destruct Hag as (Hst & _). simpl. rewrite lookup_insert_eq. intros [= <-].
      apply Hstart; eauto.
    + destruct Hag as (Hst & _).
      destruct (batch_predictions (arg_inputs t)) as [e|results] eqn:Hp; simpl;
        rewrite lookup_insert_eq; intros [= <-]; rewrite <- Hin in Hp; eauto.
    + simpl. apply IH.
Qed.

(** [completed_at] is set exactly on the jobs in a terminal state. *)
Lemma completed_at_iff_terminal w job_id j :
  reachable w -> jobs w !! job_id = Some j ->
  is_Some (Job.completed_at j) <-> terminal j.
Proof using uuid4_inj.
  intros Hr Hj.
  enough (H : (is_Some (Job.completed_at j) <-> terminal j) /\
              (Job.status j = "pending" \/ Job.status j = "processing" ->
               Job.completed_at j = None)) by apply H.
  revert w Hr job_id j Hj. apply job_lifecycle_ind; unfold terminal.
  - intros now raw ais _ _. simpl. split; [|reflexivity].
    split; [intros [? [=]]|intros [[=]|[=]]].
  - intros j [_ Hnone] Hst. job_simpl. rewrite Hnone by auto.
    split; [|reflexivity]. split; [intros [? [=]]|intros [[=]|[=]]].
  - intros now j results _ _ _. job_simpl. split; [|intros [[=]|[=]]].
    split; eauto.
  - intros now j e _ _ _. job_simpl. split; [|intros [[=]|[=]]].
    split; eauto.
Qed.

(** *** Validated inputs *)

Lemma float_field_inr d name lo hi v :
  float_field d name lo hi = inr v ->
  d !! name = Some v /\ (lo <= v)%Q /\ (v <= hi)%Q.
Proof.
  unfold float_field. destruct (d !! name) as [x|]; [|discriminate].
  destruct (Qle_bool lo x) eqn:Hlo; simpl; [|discriminate].
  destruct (Qle_bool x hi) eqn:Hhi; simpl; [|discriminate].
  intros [= <-]. apply Qle_bool_iff in Hlo, Hhi. auto.
Qed.

Lemma research_field_inr d n :
  int_field d "research" 0 1 = inr n ->
  (n = 0 \/ n = 1)%Z /\ exists v, d !! "research" = Some v /\ (v == inject_Z n)%Q.
Proof.
  clear uuid4_inj batch_model_rowwise.
  unfold int_field. destruct (d !! "research") as [v|]; [|discriminate].
  destruct (Qnum v mod Z.pos (Qden v) =? 0)%Z eqn:Hm; simpl; [|discriminate].
  destruct (0 <=? Qnum v / Z.pos (Qden v))%Z eqn:H0; simpl; [|discriminate].
  destruct (Qnum v / Z.pos (Qden v) <=? 1)%Z eqn:H1; simpl; [|discriminate].
  intros [= <-]. apply Z.eqb_eq in Hm. apply Z.leb_le in H0, H1.
  split; [lia|]. exists v. split; [reflexivity|].
  destruct v as [a b]. unfold Qeq. simpl in *.
  pose proof (Z.div_mod a (Zpos b) ltac:(lia)) as Hdm. rewrite Hm in Hdm. lia.
Qed.

(** The record [AdmissionInput] builds carries the numbers of the
    dictionary it was built from, field by field, and lies within the
    bounds; keys of the dictionary other than the seven fields play no
    part. *)
Lemma AdmissionInput_init_fields inp a :
  AdmissionInput_init inp = inr a ->
  inp !! "gre_score" = Some (gre_score a) /\
  inp !! "toefl_score" = Some (toefl_score a) /\
  inp !! "university_rating" = Some (university_rating a) /\
  inp !! "sop" = Some (sop a) /\
  inp !! "lor" = Some (lor a) /\
  inp !! "cgpa" = Some (cgpa a) /\
  (exists v, inp !! "research" = Some v /\ (v == inject_Z (research a))%Q) /\
  record_in_bounds a.
Proof.
  unfold AdmissionInput_init, record_in_bounds.
  destruct (float_field inp "gre_score" 0 (340 # 1)) as [?|x1] eqn:H1; [discriminate|].
  destruct (float_field inp "toefl_score" 0 (120 # 1)) as [?|x2] eqn:H2; [discriminate|].
  destruct (float_field inp "university_rating" 1 (5 # 1)) as [?|x3] eqn:H3;
    [discriminate|].
  destruct (float_field inp "sop" 1 (5 # 1)) as [?|x4] eqn:H4; [discriminate|].
  destruct (float_field inp "lor" 1 (5 # 1)) as [?|x5] eqn:H5; [discriminate|].
  destruct (float_field inp "cgpa" 0 (10 # 1)) as [?|x6] eqn:H6; [discriminate|].
  destruct (int_field inp "research" 0 1) as [?|x7] eqn:H7; [discriminate|].
  simpl. intros [= <-]. simpl.
  apply float_field_inr in H1 as (? & ? & ?), H2 as (? & ? & ?), H3 as (? & ? & ?),
    H4 as (? & ? & ?), H5 as (? & ? & ?), H6 as (? & ? & ?).
  apply research_field_inr in H7 as (? & ?).
  repeat split; assumption.
Qed.

Lemma comprehension_Forall {A B} (f : A -> raises B) (P : B -> Prop) l bs :
  (forall a b, f a = inr b -> P b) ->
  comprehension f l = inr bs -> Forall P bs.
Proof.
  intros Hf. revert bs. induction l as [|a l IH]; intros bs; simpl.
  - intros [= <-]. constructor.
  - destruct (f a) as [e|b] eqn:Ha; simpl; [discriminate|].
    destruct (comprehension f l) as [e|bs']; simpl; [discriminate|].
    intros [= <-]. constructor; eauto.
Qed.

(** Every job in the store holds between 1 and 1000 inputs, each within the
    bounds of [AdmissionInput]: the estimator of the batch path is never
    called on anything else. *)
Lemma stored_inputs_in_bounds w job_id j :
  reachable w -> jobs w !! job_id = Some j ->
  (1 <= length (Job.inputs j) <= 1000)%nat /\
  Forall record_in_bounds (Job.inputs j).
Proof using uuid4_inj.
  intros Hr Hj. revert w Hr job_id j Hj.
  apply (job_lifecycle_ind
    (fun j => (1 <= length (Job.inputs j) <= 1000)%nat /\
              Forall record_in_bounds (Job.inputs j))); try (intros; assumption).
  intros now raw ais Hc Hlen. simpl. split; [assumption|].
  eapply comprehension_Forall; [|exact Hc].
  intros inp a Ha. now apply AdmissionInput_init_fields in Ha.
Qed.

(** *** Submissions and the store *)


(** The store holds one job per accepted submission: the number of jobs,
    the number of threads started and the number of identifiers drawn are
    the same in every reachable state.  No job is ever removed or added by
    a background thread. *)
Lemma jobs_count w :
  reachable w ->
  size (jobs w) = uuid_calls w /\ length (threads w) = uuid_calls w.
Proof using uuid4_inj.
  intros Hr. split; [|apply (inv_count w (reachable_invariant _ Hr))].
  unfold reachable in Hr. revert w Hr.
  apply (rtc_ind_r (fun w => size (jobs w) = uuid_calls w)).
  { simpl. apply map_size_empty. }
  intros w w' Hr Hstep IH.
  pose proof (reachable_invariant _ Hr) as Hinv.
  destruct Hstep as [now raw w|now i w].
  - destruct (batch_submit_cases now raw w) as [[e ->]|(ais & _ & _ & ->)]; simpl;
      [assumption|].
    rewrite map_size_insert_None by now apply invariant_fresh. now rewrite IH.
  - unfold run_thread. destruct (threads w !! i) as [t|] eqn:Hi; [|assumption].
    destruct (inv_job w Hinv _ _ Hi) as (jt & Hjt & _).
    rewrite (process_batch_job_cases now t (jobs w) jt Hjt).
    destruct (at_pc t); [| |assumption].
    + simpl. rewrite map_size_insert_Some by eauto. assumption.
    + destruct (batch_predictions (arg_inputs t)); simpl;
        rewrite map_size_insert_Some by eauto; assumption.
Qed.

(** One step keeps the inputs and the creation time of every job, and
    keeps a job in a terminal state as it is, field by field. *)
Lemma step_job_keeps w w' job_id j :
  invariant w -> step w w' -> jobs w !! job_id = Some j ->
  exists j', jobs w' !! job_id = Some j' /\
             Job.inputs j' = Job.inputs j /\
             Job.created_at j' = Job.created_at j /\
             (terminal j -> j' = j).
Proof using uuid4_inj.
  intros Hinv Hstep Hj. destruct Hstep as [now raw w|now i w].
  - pose proof (invariant_fresh w Hinv) as Hfresh.
    destruct (batch_submit_cases now raw w) as [[e ->]|(ais & _ & _ & ->)]; simpl.
    + exists j. auto.
    + exists j. rewrite lookup_insert_ne by congruence. auto.
  - destruct (threads w !! i) as [t|] eqn:Hi.
    2:{ unfold run_thread. rewrite Hi. exists j. auto. }
    destruct (decide (job_id = arg_job_id t)) as [->|Hne].
    2:{ exists j. rewrite (run_thread_frame now i w t job_id Hi Hne). auto. }
    destruct (inv_job w Hinv _ _ Hi) as (jt & Hjt & _ & Hag).
    rewrite Hj in Hjt. injection Hjt as <-.
    unfold run_thread. rewrite Hi, (process_batch_job_cases now t (jobs w) j Hj).
    unfold terminal. destruct (at_pc t).
    + destruct Hag as (Hst & _). simpl. rewrite lookup_insert_eq.
      eexists. split; [reflexivity|]. rewrite Hst. job_simpl.
      repeat split. intros [[=]|[=]].
    + destruct Hag as (Hst & _).
      destruct (batch_predictions (arg_inputs t)); simpl; rewrite lookup_insert_eq;
        (eexists; split; [reflexivity|]); rewrite Hst; job_simpl;
        repeat split; intros [[=]|[=]].
    + simpl. exists j. auto.
Qed.

(** The inputs and the creation time of a job never change, and once a job
    is completed or failed its whole record (status, results, error and
    completion time) stays as it is: a client that polls a finished job
    reads the same answer every time. *)
Lemma job_record_stable w w' job_id j :
  reachable w -> rtc step w w' -> jobs w !! job_id = Some j ->
  exists j', jobs w' !! job_id = Some j' /\
             Job.inputs j' = Job.inputs j /\
             Job.created_at j' = Job.created_at j /\
             (terminal j ->
              j' = j /\
              batch_results_get job_id (jobs w') = batch_results_get job_id (jobs w)).
Proof using uuid4_inj.
  intros Hr Hsteps Hj. apply reachable_invariant in Hr.
  assert (H : exists j', jobs w' !! job_id = Some j' /\
                         Job.inputs j' = Job.inputs j /\
                         Job.created_at j' = Job.created_at j /\
                         (terminal j -> j' = j)).
  { revert j Hr Hj.
    induction Hsteps as [w|w w1 w2 Hstep Hsteps IH]; intros j Hinv Hj.
    - exists j. auto.
    - destruct (step_job_keeps _ _ _ _ Hinv Hstep Hj) as (j1 & Hj1 & Hin1 & Hc1 & Ht1).
      destruct (IH j1 (invariant_step _ _ Hstep Hinv) Hj1)
        as (j2 & Hj2 & Hin2 & Hc2 & Ht2).
      exists j2. repeat split; try congruence.
      intros Hterm. specialize (Ht1 Hterm). subst j1. auto. }
  destruct H as (j' & Hj' & Hin & Hc & Ht).
  exists j'. repeat split; try assumption; try (now apply Ht).
  unfold batch_results_get. rewrite Hj, Hj'. now rewrite (Ht H).
Qed.

(** *** Progress and outcome *)

(** Running a thread moves it one position forward and never past the
    exit. *)
Lemma run_thread_advances now i w t :
  invariant w -> threads w !! i = Some t ->
  exists t',
    threads (run_thread now i w) !! i = Some t' /\
    arg_job_id t' = arg_job_id t /\
    at_pc t' = match at_pc t with at_start => at_predict | _ => at_exit end.
Proof using uuid4_inj.
  intros Hinv Hi.
  destruct (inv_job w Hinv _ _ Hi) as (j & Hj & _).
  pose proof (lookup_lt_Some _ _ _ Hi) as Hlt.
  unfold run_thread. rewrite Hi, (process_batch_job_cases now t (jobs w) j Hj).
  destruct (at_pc t) eqn:Hpc.
  - simpl. rewrite list_lookup_insert_eq by assumption. eauto.
  - destruct (batch_predictions (arg_inputs t)); simpl;
      rewrite list_lookup_insert_eq by assumption; eauto.
  - simpl. rewrite list_lookup_insert_eq by assumption. eauto.
Qed.

(** A thread that has left its start position never returns to it. *)
Lemma thread_stays_started v v' i t :
  invariant v -> threads v !! i = Some t -> at_pc t <> at_start ->
  rtc step v v' ->
  exists t', threads v' !! i = Some t' /\ arg_job_id t' = arg_job_id t /\
             at_pc t' <> at_start /\ invariant v'.
Proof using uuid4_inj.
  intros Hinv Hi Hpc Hsteps. revert t Hinv Hi Hpc.
  induction Hsteps as [v|v v1 v2 Hstep Hsteps IH]; intros t Hinv Hi Hpc.
  { exists t. auto. }
  assert (Hinv1 : invariant v1) by (eapply invariant_step; eassumption).
  assert (Hnext : exists t', threads v1 !! i = Some t' /\
                             arg_job_id t' = arg_job_id t /\ at_pc t' <> at_start).
  { destruct Hstep as [now raw v|now k v].
    - destruct (batch_submit_cases now raw v) as [[e ->]|(ais & _ & _ & ->)]; simpl.
      + exists t. auto.
      + exists t. rewrite lookup_app_l by (eapply lookup_lt_Some; eassumption). auto.
    - destruct (decide (k = i)) as [->|Hne].
      + destruct (run_thread_advances now i v t Hinv Hi) as (t' & Ht' & Hid' & Hpc').
        exists t'. repeat split; [assumption|assumption|].
        rewrite Hpc'. now destruct (at_pc t).
      + exists t. unfold run_thread. destruct (threads v !! k) as [tk|] eqn:Hk.
        * destruct (process_batch_job now tk (jobs v)) as [js' tk']. simpl.
          rewrite list_lookup_insert_ne by assumption. auto.
        * auto. }
  destruct Hnext as (t' & Ht' & Hid' & Hpc').
  destruct (IH t' Hinv1 Ht' Hpc') as (t2 & Ht2 & Hid2 & Hpc2 & Hinv2).
  exists t2. split; [assumption|]. split; [congruence|]. split; assumption.
Qed.

(** Every job reaches a terminal state once its thread has run twice,
    whatever the other requests and threads do in between and whatever the
    estimator does; a further run of the thread changes nothing. *)
Lemma job_finishes now1 now2 now3 i w w' t :
  reachable w -> threads w !! i = Some t ->
  rtc step (run_thread now1 i w) w' ->
  (exists j, jobs (run_thread now2 i w') !! arg_job_id t = Some j /\ terminal j) /\
  run_thread now3 i (run_thread now2 i w') = run_thread now2 i w'.
Proof using uuid4_inj.
  intros Hr Hi Hsteps.
  pose proof (reachable_invariant _ Hr) as Hinv.
  destruct (run_thread_advances now1 i w t Hinv Hi) as (t1 & Hi1 & Hid1 & Hpc1).
  assert (Hinv1 : invariant (run_thread now1 i w)) by now apply invariant_run_thread.
  assert (Hst1 : at_pc t1 <> at_start) by (rewrite Hpc1; now destruct (at_pc t)).
  destruct (thread_stays_started _ _ i t1 Hinv1 Hi1 Hst1 Hsteps)
    as (t' & Hi' & Hid' & Hpc' & Hinv').
  destruct (run_thread_advances now2 i w' t' Hinv' Hi') as (t2 & Hi2 & Hid2 & Hpc2).
  assert (Hexit : at_pc t2 = at_exit).
  { rewrite Hpc2. now destruct (at_pc t'). }
  assert (Hinv2 : invariant (run_thread now2 i w')) by now apply invariant_run_thread.
  destruct (inv_job _ Hinv2 _ _ Hi2) as (j & Hj & _ & Hag).
  split.
  - rewrite Hexit in Hag. exists j. split; [congruence|].
    unfold terminal. destruct Hag as [(H & _)|(H & _)]; auto.
  - unfold run_thread at 1. rewrite Hi2.
    rewrite (process_batch_job_cases now3 t2 _ j Hj), Hexit.
    rewrite list_insert_id by assumption.
    now destruct (run_thread now2 i w').
Qed.

Lemma comprehension_AdmissionOutput_accepts ps :
  Forall unit_interval ps ->
  comprehension AdmissionOutput_init ps = inr (map mkAdmissionOutput ps).
Proof.
  induction 1 as [|p ps [Hlo Hhi] _ IH]; simpl; [reflexivity|].
  unfold AdmissionOutput_init at 1.
  apply Qle_bool_iff in Hlo, Hhi. rewrite Hlo, Hhi. simpl. now rewrite IH.
Qed.

(** The batch prediction succeeds exactly when the estimator returns and
    every number it returns lies in the unit interval. *)
Lemma batch_predictions_inr inputs results :
  batch_predictions inputs = inr results <->
  exists ps, batch_model (map features_row inputs) = inr ps /\
             Forall unit_interval ps /\ results = map mkAdmissionOutput ps.
Proof.
  unfold batch_predictions. split.
  - destruct (batch_model (map features_row inputs)) as [e|ps]; simpl; [discriminate|].
    intros Hc. exists ps. split; [reflexivity|].
    split; [|now apply comprehension_AdmissionOutput in Hc].
    eapply comprehension_Forall with (P := fun r => unit_interval (chance_of_admit r))
      in Hc as HF.
    + apply comprehension_AdmissionOutput in Hc as [-> _].
      clear -HF. induction ps; simpl in *; [constructor|].
      inversion HF; subst. constructor; auto.
    + intros x r Hx. apply AdmissionOutput_init_inr in Hx as (-> & ? & ?). now split.
  - intros (ps & -> & HF & ->). simpl. now apply comprehension_AdmissionOutput_accepts.
Qed.

(** How a job ends.  A finished job is completed exactly when the estimator
    returned and all its numbers lie in the unit interval, and its results
    are then those numbers, as many as the estimator returned; it is failed
    when the estimator raised or returned a number outside the unit
    interval, and its error is then the text of the exception. *)
Lemma job_outcome w job_id j :
  reachable w -> jobs w !! job_id = Some j -> terminal j ->
  (Job.status j = "completed" <->
   exists ps, batch_model (map features_row (Job.inputs j)) = inr ps /\
              Forall unit_interval ps) /\
  (Job.status j = "completed" ->
   exists ps, batch_model (map features_row (Job.inputs j)) = inr ps /\
              Job.results j = map mkAdmissionOutput ps) /\
  (Job.status j = "failed" ->
   exists e, Job.error j = Some (str e) /\
             (batch_model (map features_row (Job.inputs j)) = inl e \/
              exists ps, batch_model (map features_row (Job.inputs j)) = inr ps /\
                         ~ Forall unit_interval ps)).
Proof using uuid4_inj.
  intros Hr Hj Hterm.
  assert (Hfail : forall e, batch_predictions (Job.inputs j) = inl e ->
            ~ (exists ps, batch_model (map features_row (Job.inputs j)) = inr ps /\
                          Forall unit_interval ps) /\
            (batch_model (map features_row (Job.inputs j)) = inl e \/
             exists ps, batch_model (map features_row (Job.inputs j)) = inr ps /\
                        ~ Forall unit_interval ps)).
  { intros e He.
    assert (Hno : ~ (exists ps, batch_model (map features_row (Job.inputs j)) = inr ps /\
                                Forall unit_interval ps)).
    { intros (ps & Hm & HF).
      assert (H : batch_predictions (Job.inputs j) = inr (map mkAdmissionOutput ps))
        by (apply batch_predictions_inr; eauto).
      congruence. }
    split; [exact Hno|].
    unfold batch_predictions in He.
    destruct (batch_model (map features_row (Job.inputs j))) as [e'|ps] eqn:Hm;
      simpl in He.
    - left. congruence.
    - right. exists ps. split; [reflexivity|]. intros HF. apply Hno. eauto. }
  destruct (reachable_job_shape _ _ _ Hr Hj)
    as [(Hst & _)|[(Hst & _)|[(Hst & Hp & _)|(Hst & _ & e & Hp & Herr)]]].
  - destruct Hterm as [H|H]; congruence.
  - destruct Hterm as [H|H]; congruence.
  - apply batch_predictions_inr in Hp as (ps & Hm & HF & Hres).
    rewrite Hst. split; [split; eauto|]. split; [eauto|discriminate].
  - destruct (Hfail e Hp) as [Hno Hwhy]. rewrite Hst.
    split; [split; [discriminate|intros H; now destruct (Hno H)]|].
    split; [discriminate|]. intros _. exists e. auto.
Qed.

(** The two paths agree.  When both estimators are the same one, as both
    are loaded from the same model reference, the result of a completed
    job that was submitted with one input is the prediction [predict]
    returns for the fields of that input, and it lies in the unit
    interval. *)
Lemma single_and_batch_agree w job_id j a :
  (forall X, single_model X = batch_model X) ->
  reachable w -> jobs w !! job_id = Some j ->
  Job.status j = "completed" -> Job.inputs j = [a] ->
  exists p,
    Job.results j = [mkAdmissionOutput p] /\
    unit_interval p /\
    predict (gre_score a) (toefl_score a) (university_rating a) (sop a) (lor a)
            (cgpa a) (research a) =
      inr (JSONResponse (Prediction p) 200).
Proof using uuid4_inj batch_model_rowwise.
  intros Hsame Hr Hj Hst Hin.
  destruct (job_outcome _ _ _ Hr Hj (or_introl Hst)) as ([Hc _] & Hres & _).
  destruct (Hc Hst) as (ps & Hm & HF). destruct (Hres Hst) as (ps' & Hm' & Hrs).
  rewrite Hm in Hm'. injection Hm' as <-.
  rewrite Hin in Hm. simpl in Hm.
  pose proof (batch_model_rowwise _ _ Hm) as Hps. simpl in Hps. subst ps.
  exists (Predictor (features_row a)). split; [exact Hrs|].
  split; [now inversion HF|].
  unfold predict. unfold features_row in Hm. rewrite Hsame, Hm. reflexivity.
Qed.

(** The exempt prefixes cover none of the prediction and batch routes: a
    request to [/predict] or to any path under [/batch/] passes the
    middleware only with a header that starts with the Bearer scheme and
    whose token verifies. *)
Lemma service_routes_protected now suffix path auth_header :
  path = "/predict" +:+ suffix \/ path = "/batch/" +:+ suffix ->
  result (dispatch now path auth_header) = call_next ->
  exists h token payload,
    auth_header = Some h /\ startswith h "Bearer " = true /\
    split_blank h !! 1%nat = Some token /\ verify_token now token = inr payload.
Proof.
  intros Hpath Hpass.
  assert (Hprot : existsb (startswith path) PUBLIC_PATHS = false)
    by (destruct Hpath as [-> | ->]; reflexivity).
  destruct auth_header as [h|].
  2:{ rewrite (dispatch_without_bearer now path None Hprot I) in Hpass. discriminate. }
  destruct (startswith h "Bearer ") eqn:Hh.
  2:{ rewrite (dispatch_without_bearer now path (Some h) Hprot Hh) in Hpass.
      discriminate. }
  destruct (dispatch_bearer now path h Hprot Hh) as (token & Htoken & Hd).
  rewrite Hd in Hpass. simpl in Hpass.
  destruct (verify_token now token) as [[]|payload] eqn:Hv; try discriminate.
  exists h, token, payload. auto.
Qed.

End Service.

(** ** The service in the concrete environment *)

Lemma example_uuid4_inj a b : example.uuid4 a = example.uuid4 b -> a = b.
Proof. apply (inj pretty). Qed.

Lemma example_model_rowwise X predictions :
  example.model X = inr predictions -> predictions = map example.Predictor X.
Proof. now intros [= <-]. Qed.

(** The inputs of the test suite's batch lie within the bounds. *)
Lemma sample_batch_in_bounds : Forall in_bounds example.sample_batch_input.
Proof.
  repeat constructor;
    (apply AdmissionInput_init_accepts; eexists; vm_compute; reflexivity).
Qed.

(** The sizes at the edges of the admitted range. *)
Example empty_batch_rejected :
  status_code (batch_submit example.uuid4 0 [] startup).1 = 400%nat.
Proof. reflexivity. Qed.

Example batch_of_1000_accepted :
  status_code
    (batch_submit example.uuid4 0 (replicate 1000 example.sample_input) startup).1 =
  200%nat.
Proof. vm_compute. reflexivity. Qed.

Example batch_of_1001_rejected :
  batch_submit example.uuid4 0 (replicate 1001 example.sample_input) startup =
  (JSONResponse
     (Error (str (ValidationError "inputs"
                    "Value error, Batch size cannot exceed 1000 records"))) 400,
   startup).
Proof. vm_compute. reflexivity. Qed.

(** The test suite's batch is submitted to a fresh process and its thread
    runs both critical sections: the job is completed with three results. *)
Lemma C1_witness :
  let w1 := (batch_submit example.uuid4 0 example.sample_batch_input startup).2 in
  let w := run_thread example.model 2 0 (run_thread example.model 1 0 w1) in
  exists j,
    jobs w !! example.uuid4 0 = Some j /\
    Job.status j = "completed" /\
    length (Job.results j) = 3%nat /\
    length (Job.results j) = length (Job.inputs j) /\
    forall i inp, example.sample_batch_input !! i = Some inp ->
      exists a, AdmissionInput_init inp = inr a /\
                Job.inputs j !! i = Some a /\
                Job.results j !! i =
                  Some (mkAdmissionOutput (example.Predictor (features_row a))).
Proof.
  intros w1 w. eexists. split; [vm_compute; reflexivity|]. split; [reflexivity|].
  apply (C1_completed_results_follow_inputs example.uuid4 example.model
           example_uuid4_inj example.Predictor example_model_rowwise
           0 example.sample_batch_input startup w).
  - apply rtc_refl.
  - reflexivity.
  - eapply rtc_l; [apply step_thread|]. eapply rtc_l; [apply step_thread|].
    apply rtc_refl.
  - vm_compute. reflexivity.
  - reflexivity.
Defined.

(** The job of the test suite's batch is pending after the submission and
    completed after its thread has run. *)
Lemma C2_witness :
  let w1 := (batch_submit example.uuid4 0 example.sample_batch_input startup).2 in
  let w := run_thread example.model 2 0 (run_thread example.model 1 0 w1) in
  exists j j',
    jobs w1 !! "0" = Some j /\ Job.status j = "pending" /\
    jobs w !! "0" = Some j' /\ Job.status j' = "completed" /\
    status_le (Job.status j) (Job.status j') = true /\
    batch_status_get "0" (jobs w1) = JSONResponse (JobStatus "0" "pending") 200 /\
    batch_status_get "0" (jobs w) = JSONResponse (JobStatus "0" "completed") 200.
Proof.
  intros w1 w.
  assert (Hr : reachable example.uuid4 example.model w1).
  { eapply rtc_l; [apply step_submit|apply rtc_refl]. }
  assert (Hs : rtc (step example.uuid4 example.model) w1 w).
  { eapply rtc_l; [apply step_thread|]. eapply rtc_l; [apply step_thread|].
    apply rtc_refl. }
  destruct (jobs w1 !! "0") as [j|] eqn:Hj; [|vm_compute in Hj; discriminate].
  destruct (C2_status_monotone example.uuid4 example.model example_uuid4_inj
              w1 w "0" j Hr Hs Hj) as (j' & Hj' & Hle & _ & Hq & Hq').
  exists j, j'.
  assert (Hst : Job.status j = "pending")
    by (vm_compute in Hj; injection Hj as <-; reflexivity).
  assert (Hst' : Job.status j' = "completed")
    by (vm_compute in Hj'; injection Hj' as <-; reflexivity).
  rewrite Hst in Hq. rewrite Hst' in Hq'. repeat split; assumption.
Defined.

(** The completed job of the test suite's batch has results and no error. *)
Lemma C3_witness :
  let w1 := (batch_submit example.uuid4 0 example.sample_batch_input startup).2 in
  let w := run_thread example.model 2 0 (run_thread example.model 1 0 w1) in
  exists j,
    jobs w !! "0" = Some j /\
    (Job.results j <> [] -> Job.status j = "completed") /\
    (is_Some (Job.error j) <-> Job.status j = "failed") /\
    (Job.status j = "failed" -> Job.results j = []).
Proof.
  intros w1 w. eexists. split; [vm_compute; reflexivity|].
  apply (C3_results_and_error_follow_status example.uuid4 example.model
           example_uuid4_inj w "0").
  - eapply rtc_l; [apply step_submit|]. eapply rtc_l; [apply step_thread|].
    eapply rtc_l; [apply step_thread|]. apply rtc_refl.
  - vm_compute. reflexivity.
Defined.

(** The test suite's batch is accepted. *)
Lemma C4_witness :
  status_code (batch_submit example.uuid4 0 example.sample_batch_input startup).1 =
  200%nat.
Proof.
  destruct (C4_batch_submit_validation example.uuid4 0 example.sample_batch_input
              startup) as [Haccept _].
  apply Haccept. split; [simpl; lia|apply sample_batch_in_bounds].
Defined.

(** An authenticated results query on the completed job of the test suite's
    batch is answered 200 with the three results and a count of three. *)
Lemma C5_witness :
  let w1 := (batch_submit example.uuid4 0 example.sample_batch_input startup).2 in
  let w := run_thread example.model 2 0 (run_thread example.model 1 0 w1) in
  exists j,
    jobs w !! "0" = Some j /\ Job.status j = "completed" /\
    length (Job.inputs j) = 3%nat /\
    serve_get example.environ example.jwt_decode example.security 0 batch_results
      "0" (Some "Bearer admin.token") (jobs w) =
    JSONResponse (JobResults "0" "completed" (Job.results j) (length (Job.inputs j))) 200.
Proof.
  intros w1 w. eexists. split; [vm_compute; reflexivity|].
  split; [reflexivity|]. split; [reflexivity|].
  apply (C5_results_by_status example.environ example.jwt_decode example.security
           example.uuid4 example.model example_uuid4_inj example.Predictor
           example_model_rowwise 0 w "0" _ (Some "Bearer admin.token")).
  - eapply rtc_l; [apply step_submit|]. eapply rtc_l; [apply step_thread|].
    eapply rtc_l; [apply step_thread|]. apply rtc_refl.
  - vm_compute. reflexivity.
  - vm_compute. reflexivity.
  - reflexivity.
Defined.

(** An expired token on a protected path is answered 401 "Token expired". *)
Lemma C6_witness :
  result (dispatch example.environ example.jwt_decode 0 "/predict"
            (Some "Bearer old.token")) =
  respond (JSONResponse (Error "Token expired") 401).
Proof.
  destruct (C6_dispatch example.environ example.jwt_decode 0 "/predict"
              (Some "Bearer old.token")) as [_ Hprotected].
  destruct (Hprotected eq_refl) as [_ Hbearer].
  destruct (Hbearer _ eq_refl eq_refl) as (token & Htoken & _ & Hexpired & _).
  apply Hexpired. vm_compute in Htoken. injection Htoken as <-. reflexivity.
Defined.

(** A header that is the scheme followed by nothing starts with the scheme:
    the empty token is handed to [verify_token], which decides. *)
Example bearer_with_empty_token :
  dispatch example.environ example.jwt_decode 0 "/predict" (Some "Bearer ") =
  mkDispatched (respond (JSONResponse (Error "Invalid token") 401)) [""].
Proof. reflexivity. Qed.

(** A status query without an [Authorization] header for an identifier that
    is not in the store is answered 401, not 404. *)
Lemma C7_counterexample :
  (∅ : gmap string Job.job) !! "test-job-id" = None /\
  status_code
    (serve_get example.environ example.jwt_decode example.security 0
       batch_status "test-job-id" None ∅) = 401%nat /\
  status_code
    (serve_get example.environ example.jwt_decode example.security 0
       batch_status "test-job-id" None ∅) <> 404%nat.
Proof. split; [reflexivity|]. split; [reflexivity|discriminate]. Qed.

(** An authenticated status query for an identifier that is not in the
    store is answered 404. *)
Lemma C7_witness :
  serve_get example.environ example.jwt_decode example.security 0 batch_status
    "invalid-job-id-12345" (Some "Bearer admin.token") ∅ =
  HTTPException 404 (Detail "Job not found").
Proof.
  apply (C7_unknown_job_authenticated example.environ example.jwt_decode
           example.security 0 batch_status "invalid-job-id-12345"
           (Some "Bearer admin.token") ∅); reflexivity.
Defined.

(** The tokens of [guest] and of [admin] are both decoded by the library:
    the two requests get the same outcome, and the token of [guest], whose
    subject is not the configured user, is accepted. *)
Lemma C10_witness :
  (result (dispatch example.environ example.jwt_decode 0 "/predict"
             (Some "Bearer guest.token")) =
   result (dispatch example.environ example.jwt_decode 0 "/predict"
             (Some "Bearer admin.token")) /\
   passes (get_current_user example.environ example.jwt_decode 0 "guest.token") =
   passes (get_current_user example.environ example.jwt_decode 0 "admin.token")) /\
  (result (dispatch example.environ example.jwt_decode 0 "/predict"
             (Some "Bearer guest.token")) = call_next /\
   get_current_user example.environ example.jwt_decode 0 "guest.token" =
     inr {[ "sub" := CStr "guest"; "exp" := CNum 1800; "iat" := CNum 0 ]}).
Proof.
  destruct (C10_subject_is_not_consulted example.environ example.jwt_decode 0
              "/predict" "Bearer guest.token" "Bearer admin.token"
              "guest.token" "admin.token" eq_refl eq_refl eq_refl eq_refl eq_refl)
    as [Hsame Haccepted].
  split.
  - apply Hsame. exact I.
  - apply Haccepted; [reflexivity|]. vm_compute. discriminate.
Defined.

(** The token of [guest] verifies, its subject is not the configured user,
    and the request passes the middleware. *)
Example guest_token_accepted :
  API_USERNAME example.environ = "admin" /\
  (exists payload,
     verify_token example.environ example.jwt_decode 0 "guest.token" = inr payload /\
     subject payload = Some (CStr "guest")) /\
  result (dispatch example.environ example.jwt_decode 0 "/predict"
            (Some "Bearer guest.token")) = call_next.
Proof.
  split; [reflexivity|]. split; [|reflexivity].
  eexists. split; [reflexivity|]. vm_compute. reflexivity.
Qed.

(** ** The single prediction path *)

(** C8, at a request the code accepts.  A GRE score of 500 is outside the
    bound of [AdmissionInput], whose constructor rejects it, and the batch
    path answers 400 for it and creates no job; [predict] takes the same
    fields as plain arguments, never constructs an [AdmissionInput], and
    answers 200 with a prediction. *)
Theorem C8_predict_ignores_field_bounds :
  let bad := <["gre_score" := 500 # 1]> example.sample_input in
  ~ in_bounds bad /\
  (exists e, AdmissionInput_init bad = inl e) /\
  (exists e, batch_submit example.uuid4 0 [bad] startup =
             (JSONResponse (Error (str e)) 400, startup)) /\
  predict example.model (500 # 1) (118 # 1) (4 # 1) (45 # 10) (45 # 10) (965 # 100) 1 =
    inr (JSONResponse (Prediction (2511797 # 2000000)) 200).
Proof.
  intros bad.
  assert (Hrej : AdmissionInput_init bad =
                 inl (ValidationError "gre_score"
                        "Input should be less than or equal to the upper bound"))
    by (vm_compute; reflexivity).
  split.
  { intros Hin. apply AdmissionInput_init_accepts in Hin as [a Ha]. congruence. }
  split; [eauto|]. split; [|vm_compute; reflexivity].
  eexists. unfold batch_submit. simpl comprehension. rewrite Hrej. reflexivity.
Qed.

(** C9, at a request the code accepts.  For the input at the top of every
    bound the linear model predicts more than 1.  [predict] returns that
    number as [chance_of_admit] with status 200; the batch path passes the
    same number to [AdmissionOutput], which rejects it, and the job fails. *)
Theorem C9_predict_returns_unbounded_value :
  let top : gmap string Q :=
    {[ "gre_score" := 340 # 1; "toefl_score" := 120 # 1;
       "university_rating" := 5 # 1; "sop" := 5 # 1; "lor" := 5 # 1;
       "cgpa" := 10 # 1; "research" := 1 # 1 ]} in
  in_bounds top /\
  predict example.model (340 # 1) (120 # 1) (5 # 1) (5 # 1) (5 # 1) (10 # 1) 1 =
    inr (JSONResponse (Prediction (51023 # 50000)) 200) /\
  ~ (51023 # 50000 <= 1)%Q /\
  (exists e, AdmissionOutput_init (51023 # 50000) = inl e) /\
  let w1 := (batch_submit example.uuid4 0 [top] startup).2 in
  let w := run_thread example.model 2 0 (run_thread example.model 1 0 w1) in
  Job.status <$> jobs w !! "0" = Some "failed" /\
  Job.results <$> jobs w !! "0" = Some [].
Proof.
  intros top. split.
  { apply AdmissionInput_init_accepts. eexists. vm_compute. reflexivity. }
  split; [vm_compute; reflexivity|].
  split; [intros H; vm_compute in H; now apply H|].
  split; [eexists; vm_compute; reflexivity|].
  intros w1 w. split; vm_compute; reflexivity.
Qed.

(** ** Further runs in the concrete environment *)

(** With no environment variables, [admin]/[secret123] logs in and gets the
    token of [admin]. *)
Lemma login_accepts_configured_credentials_witness :
  login example.environ example_issuer.jwt_encode example_issuer.int 0 0
    "admin" "secret123" =
  JSONResponse (Token "admin.token") 200.
Proof.
  apply (login_accepts_configured_credentials example.environ
           example_issuer.jwt_encode example_issuer.int 0 0 "admin" "secret123").
  split; reflexivity.
Defined.

Lemma login_default_credentials_witness :
  status_code (login example.environ example_issuer.jwt_encode example_issuer.int
                 0 0 "admin" "secret123") = 200%nat.
Proof.
  apply (login_default_credentials example.environ example_issuer.jwt_encode
           example_issuer.int 0 0 "admin" "secret123");
    [reflexivity|reflexivity|split; reflexivity].
Defined.

(** What follows the first blank of the credentials is ignored. *)
Lemma dispatch_verifies_first_piece_witness :
  verified (dispatch example.environ example.jwt_decode 0 "/predict"
              (Some "Bearer admin.token and more")) = ["admin.token"] /\
  result (dispatch example.environ example.jwt_decode 0 "/predict"
            (Some "Bearer admin.token and more")) = call_next.
Proof.
  destruct (dispatch_verifies_first_piece example.environ example.jwt_decode 0
              "/predict" "admin.token and more" eq_refl) as (Hlog & Hpass & _).
  split; [exact Hlog|]. apply Hpass. eexists. reflexivity.
Defined.

(** A path that merely starts like [/login] is let through without a
    header. *)
Lemma dispatch_exempt_prefix_witness :
  dispatch example.environ example.jwt_decode 0 "/login-or-anything-else" None =
  mkDispatched call_next [].
Proof.
  apply (dispatch_exempt_prefix example.environ example.jwt_decode 0
           "/login" "-or-anything-else" None).
  left. reflexivity.
Defined.

Lemma service_routes_protected_witness :
  exists h token payload,
    Some "Bearer admin.token" = Some h /\ startswith h "Bearer " = true /\
    split_blank h !! 1%nat = Some token /\
    verify_token example.environ example.jwt_decode 0 token = inr payload.
Proof.
  apply (service_routes_protected example.environ example.jwt_decode 0 "submit"
           "/batch/submit" (Some "Bearer admin.token"));
    [right; reflexivity|reflexivity].
Defined.

(** The fields of the first input of the test suite's batch. *)
Lemma AdmissionInput_init_fields_witness :
  exists a,
    AdmissionInput_init example.sample_input = inr a /\
    example.sample_input !! "cgpa" = Some (cgpa a) /\
    record_in_bounds a.
Proof.
  eexists. split; [vm_compute; reflexivity|].
  edestruct (AdmissionInput_init_fields example.sample_input)
    as (_ & _ & _ & _ & _ & Hcgpa & _ & Hbounds);
    [vm_compute; reflexivity|].
  split; [exact Hcgpa|exact Hbounds].
Defined.


(** Two submissions and the run of the first thread: two jobs, two threads,
    two identifiers. *)
Lemma jobs_count_witness :
  let w1 := (batch_submit example.uuid4 0 example.sample_batch_input startup).2 in
  let w2 := (batch_submit example.uuid4 1 [example.sample_input] w1).2 in
  let w := run_thread example.model 2 0 w2 in
  size (jobs w) = 2%nat /\ length (threads w) = 2%nat.
Proof.
  intros w1 w2 w.
  apply (jobs_count example.uuid4 example.model example_uuid4_inj w).
  eapply rtc_l; [apply step_submit|]. eapply rtc_l; [apply step_submit|].
  eapply rtc_l; [apply step_thread|]. apply rtc_refl.
Defined.

(** While the thread of the first job runs, the second job stays as it
    is. *)
Lemma run_thread_frame_witness :
  let w1 := (batch_submit example.uuid4 0 example.sample_batch_input startup).2 in
  let w2 := (batch_submit example.uuid4 1 [example.sample_input] w1).2 in
  jobs (run_thread example.model 2 0 w2) !! "1" = jobs w2 !! "1".
Proof.
  intros w1 w2.
  eapply (run_thread_frame example.model 2 0 w2 _ "1").
  - vm_compute. reflexivity.
  - discriminate.
Defined.

(** The completed job of the test suite's batch is read back unchanged
    after another submission and the run of its thread. *)
Lemma job_record_stable_witness :
  let w1 := (batch_submit example.uuid4 0 example.sample_batch_input startup).2 in
  let w := run_thread example.model 2 0 (run_thread example.model 1 0 w1) in
  let w' := run_thread example.model 4 1
              (batch_submit example.uuid4 3 [example.sample_input] w).2 in
  exists j,
    jobs w !! "0" = Some j /\ terminal j /\
    exists j', jobs w' !! "0" = Some j' /\
               Job.inputs j' = Job.inputs j /\
               Job.created_at j' = Job.created_at j /\
               (terminal j ->
                j' = j /\
                batch_results_get "0" (jobs w') = batch_results_get "0" (jobs w)).
Proof.
  intros w1 w w'. eexists. split; [vm_compute; reflexivity|].
  split; [left; reflexivity|].
  apply (job_record_stable example.uuid4 example.model example_uuid4_inj w w' "0").
  - eapply rtc_l; [apply step_submit|]. eapply rtc_l; [apply step_thread|].
    eapply rtc_l; [apply step_thread|]. apply rtc_refl.
  - eapply rtc_l; [apply step_submit|]. eapply rtc_l; [apply step_thread|].
    apply rtc_refl.
  - vm_compute. reflexivity.
Defined.

(** The completed job of the test suite's batch carries a completion
    time. *)
Lemma completed_at_iff_terminal_witness :
  let w1 := (batch_submit example.uuid4 0 example.sample_batch_input startup).2 in
  let w := run_thread example.model 2 0 (run_thread example.model 1 0 w1) in
  exists j,
    jobs w !! "0" = Some j /\ Job.completed_at j = Some (2 # 1) /\
    (is_Some (Job.completed_at j) <-> terminal j).
Proof.
  intros w1 w. eexists. split; [vm_compute; reflexivity|]. split; [reflexivity|].
  apply (completed_at_iff_terminal example.uuid4 example.model example_uuid4_inj
           w "0").
  - eapply rtc_l; [apply step_submit|]. eapply rtc_l; [apply step_thread|].
    eapply rtc_l; [apply step_thread|]. apply rtc_refl.
  - vm_compute. reflexivity.
Defined.

(** The thread of the test suite's batch runs, another batch is submitted,
    the thread runs again: the job is finished. *)
Lemma job_finishes_witness :
  let w := (batch_submit example.uuid4 0 example.sample_batch_input startup).2 in
  let w' := (batch_submit example.uuid4 2 [example.sample_input]
               (run_thread example.model 1 0 w)).2 in
  (exists j, jobs (run_thread example.model 3 0 w') !! "0" = Some j /\ terminal j) /\
  run_thread example.model 4 0 (run_thread example.model 3 0 w') =
  run_thread example.model 3 0 w'.
Proof.
  intros w w'.
  eapply (job_finishes example.uuid4 example.model example_uuid4_inj 1 3 4 0 w w'
            (Thread "0" _ at_start)).
  - eapply rtc_l; [apply step_submit|]. apply rtc_refl.
  - vm_compute. reflexivity.
  - eapply rtc_l; [apply step_submit|]. apply rtc_refl.
Defined.

(** The completed job of the test suite's batch: the estimator returned
    three numbers in the unit interval. *)
Lemma job_outcome_witness :
  let w1 := (batch_submit example.uuid4 0 example.sample_batch_input startup).2 in
  let w := run_thread example.model 2 0 (run_thread example.model 1 0 w1) in
  exists j,
    jobs w !! "0" = Some j /\
    (Job.status j = "completed" <->
     exists ps, example.model (map features_row (Job.inputs j)) = inr ps /\
                Forall unit_interval ps).
Proof.
  intros w1 w. eexists. split; [vm_compute; reflexivity|].
  eapply (fun Hr Hj Ht => proj1 (job_outcome example.uuid4 example.model
                                   example_uuid4_inj w "0" _ Hr Hj Ht)).
  - eapply rtc_l; [apply step_submit|]. eapply rtc_l; [apply step_thread|].
    eapply rtc_l; [apply step_thread|]. apply rtc_refl.
  - vm_compute. reflexivity.
  - left. reflexivity.
Defined.

Lemma stored_inputs_in_bounds_witness :
  let w1 := (batch_submit example.uuid4 0 example.sample_batch_input startup).2 in
  let w := run_thread example.model 2 0 (run_thread example.model 1 0 w1) in
  exists j,
    jobs w !! "0" = Some j /\
    (1 <= length (Job.inputs j) <= 1000)%nat /\
    Forall record_in_bounds (Job.inputs j).
Proof.
  intros w1 w. eexists. split; [vm_compute; reflexivity|].
  apply (stored_inputs_in_bounds example.uuid4 example.model example_uuid4_inj w "0").
  - eapply rtc_l; [apply step_submit|]. eapply rtc_l; [apply step_thread|].
    eapply rtc_l; [apply step_thread|]. apply rtc_refl.
  - vm_compute. reflexivity.
Defined.

(** A batch of the first input of the test suite alone: the job's result is
    the number [predict] returns for that input. *)
Lemma single_and_batch_agree_witness :
  let w1 := (batch_submit example.uuid4 0 [example.sample_input] startup).2 in
  let w := run_thread example.model 2 0 (run_thread example.model 1 0 w1) in
  exists j p,
    jobs w !! "0" = Some j /\
    Job.results j = [mkAdmissionOutput p] /\
    unit_interval p /\
    predict example.model (337 # 1) (118 # 1) (4 # 1) (45 # 10) (45 # 10)
      (965 # 100) 1 =
      inr (JSONResponse (Prediction p) 200).
Proof.
  intros w1 w.
  edestruct (single_and_batch_agree example.uuid4 example.model example.model
               example_uuid4_inj example.Predictor example_model_rowwise w "0")
    as (p & Hres & Hunit & Hpredict).
  - reflexivity.
  - eapply rtc_l; [apply step_submit|]. eapply rtc_l; [apply step_thread|].
    eapply rtc_l; [apply step_thread|]. apply rtc_refl.
  - vm_compute. reflexivity.
  - reflexivity.
  - reflexivity.
  - eexists _, p. split; [vm_compute; reflexivity|].
    split; [exact Hres|]. split; [exact Hunit|exact Hpredict].
Defined.
